(** * The Cloudinary upload adapter of ckeditor5-upload-cloudinary

    A shallow embedding of [src/adapters/simpleuploadadapter.js]: the plugin's
    [init], the [Adapter] class ([constructor], [upload], [abort]) and the
    part of the browser environment they run against (property access,
    [AbortController], [fetch], promises).

    Objects with identity (adapters, abort controllers) live in heaps indexed
    by allocation order; an [async] function is a program in a small
    free monad whose suspension points are the source's [await]s; the host
    and the network drive it through events. *)

From Stdlib Require Import PrimFloat ZArith.
From stdpp Require Import gmap strings list fin_maps.
Set Warnings "-register-all".

(** ** JavaScript values *)

(** The values the adapter handles: what [JSON.parse] can produce,
    [undefined], and the [File] a loader hands over. Numbers are IEEE 754
    doubles, as in the language. *)
Inductive JSValue : Type :=
| JUndefined
| JNull
| JBool (b : bool)
| JNum (x : float)
| JStr (s : string)
| JArr (items : list JSValue)
| JObj (props : gmap string JSValue)
| JFile (name : string) (content : list Byte.byte).

(** What a [throw] or a rejected promise carries. *)
Inductive Exn : Type :=
| TypeError (msg : string)
| SyntaxError (msg : string)
| AbortError
| Thrown (v : JSValue).

(** The completion of an evaluation, and equally the settlement of a promise
    as an [await] sees it: a value, or a thrown reason. *)
Inductive Completion (A : Type) : Type :=
| Normal (a : A)
| Throw (e : Exn).
Arguments Normal {A} a.
Arguments Throw {A} e.

(** [!v] is [negb (truthy v)]. *)
Definition truthy (v : JSValue) : bool :=
  match v with
  | JUndefined | JNull => false
  | JBool b => b
  | JNum x => negb (PrimFloat.is_zero x || PrimFloat.is_nan x)
  | JStr s => negb (String.eqb s EmptyString)
  | JArr _ | JObj _ | JFile _ _ => true
  end.

(** [v.k] for the property names the source reads ([uploadUrl],
    [CLOUDINARY_UPLOAD_PRESET], [CLOUDINARY_UPLOAD_URL], [secure_url]):
    none of them is defined on a built-in prototype, so only an object's own
    properties can answer; reading a property of [undefined] or [null]
    throws. Destructuring [const { k } = v] behaves the same way. *)
Definition get_prop (v : JSValue) (k : string) : Completion JSValue :=
  match v with
  | JUndefined => Throw (TypeError ("Cannot read property of undefined: " +:+ k))
  | JNull => Throw (TypeError ("Cannot read property of null: " +:+ k))
  | JObj props => Normal (default JUndefined (props !! k))
  | _ => Normal JUndefined
  end.

(** ** Environment objects *)

(** Heap addresses. *)
Abbreviation AdapterRef := nat (only parsing).
Abbreviation CtrlRef := nat (only parsing).

(** [FormData]: the entries in the order they were appended, each with the
    value handed to [append]. *)
Definition FormData := list (string * JSValue).

Definition FormData_append (data : FormData) (name : string) (value : JSValue)
  : FormData :=
  data ++ [(name, value)].

(** The second argument of [fetch]. A member the object literal does not
    mention is [None]. A signal is named by its controller. *)
Record RequestInit := {
  method : option string;
  headers : option JSValue;
  body : option FormData;
  signal : option CtrlRef;
}.

(** A [Response] as the adapter uses it: the status line, what [json()]
    settles to when nothing interrupts it, and the request it answers. *)
Record Response := {
  request : nat;
  status : Z;
  json : Completion JSValue;
}.

(** What the network delivers for a request: a status and a body, the body
    seen through the JSON parser (a parsed value, or the parser's error). *)
Record Reply := {
  reply_status : Z;
  reply_json : Completion JSValue;
}.

(** Modelled from the spec: the host's file loader (its class is in
    [src/filerepository.js], which is not among the sources): "a loader
    exposes an awaitable file payload". [file] is what that promise settles
    to. *)
Record FileLoader := {
  file : Completion JSValue;
}.

(** An [Adapter] instance. [abortController] is [None] until [upload] assigns
    the property: the constructor does not. [options] is the configuration
    object itself; the adapter never writes to it. *)
Record Adapter := {
  loader : FileLoader;
  options : JSValue;
  abortController : option CtrlRef;
}.

(** A request handed to the network by [fetch]. *)
Record Request := {
  by_call : nat;
  input : JSValue;
  init_of : RequestInit;
}.

(** ** Asynchronous programs *)

(** The body of an [async] function: synchronous effects on [this] and on the
    controller heap, and the three [await]s of the source. An [await] on a
    promise that rejects throws, and nothing in the source catches. *)
Inductive Async : Type :=
| Return (v : JSValue)
| Raise (e : Exn)
| ReadThis (k : Adapter -> Async)
| NewAbortController (k : CtrlRef -> Async)
| SetAbortController (c : CtrlRef) (k : Async)
| AwaitFile (p : Completion JSValue) (k : JSValue -> Async)
| AwaitFetch (url : JSValue) (init : RequestInit) (k : Response -> Async)
| AwaitJson (res : Response) (k : JSValue -> Async).

(** A synchronous step that may throw. *)
Definition Try {A : Type} (c : Completion A) (k : A -> Async) : Async :=
  match c with
  | Normal a => k a
  | Throw e => Raise e
  end.

Declare Scope async_scope.
Delimit Scope async_scope with async.
Notation "x <- op ;; k" := (op (fun x => k))
  (at level 100, op at next level, right associativity, only parsing)
  : async_scope.
Notation "op ;;; k" := (op k)
  (at level 100, right associativity, only parsing) : async_scope.

(** ** The Adapter class *)

(** [constructor( loader, options )]. *)
Definition new_Adapter_object (loader : FileLoader) (options : JSValue) : Adapter :=
  {| loader := loader; options := options; abortController := None |}.

(** [async upload()]. *)
Definition upload : Async :=
  (abortController <- NewAbortController ;;
   SetAbortController abortController ;;;
   let signal := abortController in
   let data : FormData := [] in
   this <- ReadThis ;;
   preset <- Try (get_prop (options this) "CLOUDINARY_UPLOAD_PRESET") ;;
   let data := FormData_append data "upload_preset" preset in
   this <- ReadThis ;;
   file <- AwaitFile (file (loader this)) ;;
   let data := FormData_append data "file" file in
   this <- ReadThis ;;
   url <- Try (get_prop (options this) "CLOUDINARY_UPLOAD_URL") ;;
   res <- AwaitFetch url {| method := Some "POST";
                            headers := None;
                            body := Some data;
                            signal := Some signal |} ;;
   parsed <- AwaitJson res ;;
   secure_url <- Try (get_prop parsed "secure_url") ;;
   Return (JObj {[ "default" := secure_url ]}))%async.

(** ** The world the adapters run in *)

(** Where an [upload()] call stands: suspended at one of its [await]s, with
    the rest of the body, or settled. [OnFetch r] awaits the response to
    request [r]; [OnJson res] awaits the body of [res]. *)
Inductive CallState : Type :=
| OnFile (p : Completion JSValue) (k : JSValue -> Async)
| OnFetch (r : nat) (k : Response -> Async)
| OnJson (res : Response) (k : JSValue -> Async)
| Settled (result : Completion JSValue).

(** One invocation of [upload()]: the promise it returned. *)
Record Call := {
  self : AdapterRef;
  state : CallState;
}.

(** The heaps, the calls made so far, and what the network has seen:
    [requests] are the requests issued, in order; [cancelled] lists, in
    order, every cancellation the transport received (by request). A
    controller's cell is its signal's [aborted] flag. *)
Record World := {
  adapters : list Adapter;
  controllers : list bool;
  calls : list Call;
  requests : list Request;
  cancelled : list nat;
}.

Definition empty_world : World :=
  {| adapters := []; controllers := []; calls := []; requests := [];
     cancelled := [] |}.

Definition set_adapters (f : list Adapter -> list Adapter) (w : World) : World :=
  {| adapters := f (adapters w); controllers := controllers w;
     calls := calls w; requests := requests w; cancelled := cancelled w |}.

Definition set_controllers (f : list bool -> list bool) (w : World) : World :=
  {| adapters := adapters w; controllers := f (controllers w);
     calls := calls w; requests := requests w; cancelled := cancelled w |}.

Definition set_calls (f : list Call -> list Call) (w : World) : World :=
  {| adapters := adapters w; controllers := controllers w;
     calls := f (calls w); requests := requests w; cancelled := cancelled w |}.

Definition set_requests (f : list Request -> list Request) (w : World) : World :=
  {| adapters := adapters w; controllers := controllers w;
     calls := calls w; requests := f (requests w); cancelled := cancelled w |}.

Definition set_cancelled (f : list nat -> list nat) (w : World) : World :=
  {| adapters := adapters w; controllers := controllers w;
     calls := calls w; requests := requests w; cancelled := f (cancelled w) |}.

(** [new Adapter( loader, options )]: a fresh object, and its address. *)
Definition new_Adapter (loader : FileLoader) (options : JSValue) (w : World)
  : AdapterRef * World :=
  (length (adapters w),
   set_adapters (fun h => h ++ [new_Adapter_object loader options]) w).

Definition with_abortController (c : CtrlRef) (this : Adapter) : Adapter :=
  {| loader := loader this; options := options this;
     abortController := Some c |}.

(** [signal.aborted]; no signal at all counts as not aborted. *)
Definition signal_aborted (w : World) (s : option CtrlRef) : bool :=
  match s with
  | Some c => default false (controllers w !! c)
  | None => false
  end.

Definition request_aborted (w : World) (r : nat) : bool :=
  match requests w !! r with
  | Some rq => signal_aborted w (signal (init_of rq))
  | None => false
  end.

(** Runs call [me] of adapter [this_ref] up to its next [await] (or to its
    end). [fetch] with a signal that is already aborted returns a rejected
    promise and hands nothing to the network; otherwise it issues the
    request. *)
Fixpoint run (this_ref : AdapterRef) (me : nat) (prog : Async) (w : World)
  : CallState * World :=
  match prog with
  | Return v => (Settled (Normal v), w)
  | Raise e => (Settled (Throw e), w)
  | ReadThis k =>
      match adapters w !! this_ref with
      | Some this => run this_ref me (k this) w
      | None => (Settled (Throw (TypeError "this is undefined")), w)
      end
  | NewAbortController k =>
      run this_ref me (k (length (controllers w)))
          (set_controllers (fun h => h ++ [false]) w)
  | SetAbortController c k =>
      run this_ref me k
          (set_adapters (alter (with_abortController c) this_ref) w)
  | AwaitFile p k => (OnFile p k, w)
  | AwaitFetch url init k =>
      if signal_aborted w (signal init)
      then (Settled (Throw AbortError), w)
      else (OnFetch (length (requests w)) k,
            set_requests
              (fun l => l ++ [{| by_call := me; input := url; init_of := init |}])
              w)
  | AwaitJson res k => (OnJson res k, w)
  end.

(** The request a suspended call has in flight, if any. *)
Definition pending_request (st : CallState) : option nat :=
  match st with
  | OnFetch r _ => Some r
  | OnJson res _ => Some (request res)
  | OnFile _ _ | Settled _ => None
  end.

(** The requests in flight whose signal belongs to controller [c]. *)
Definition in_flight_with (c : CtrlRef) (w : World) : list nat :=
  filter (fun r => signal ∘ init_of <$> requests w !! r = Some (Some c))
         (omap (pending_request ∘ state) (calls w)).

(** [controller.abort()]: the first call sets the flag and notifies the
    fetches listening on the signal; later calls do nothing. *)
Definition AbortController_abort (c : CtrlRef) (w : World) : World :=
  match controllers w !! c with
  | Some false =>
      set_cancelled (fun l => l ++ in_flight_with c w)
        (set_controllers (fun h => <[c := true]> h) w)
  | _ => w
  end.

(** [abort()]: [this.abortController.abort()]. [None] when [a] is not an
    adapter of this world. *)
Definition abort (a : AdapterRef) (w : World) : option (Completion unit * World) :=
  this ← adapters w !! a;
  match abortController this with
  | None =>
      Some (Throw (TypeError "Cannot read property 'abort' of undefined"), w)
  | Some c => Some (Normal tt, AbortController_abort c w)
  end.

(** ** Events *)

(** What the host does ([Construct], [CallUpload], [CallAbort]) and what the
    environment delivers: the loader's file promise settles for call [c],
    the network answers call [c]'s request, the body of the response call
    [c] holds has been read. *)
Inductive Event : Type :=
| Construct (loader : FileLoader) (options : JSValue)
| CallUpload (a : AdapterRef)
| CallAbort (a : AdapterRef)
| FileSettles (c : nat)
| FetchSettles (c : nat) (r : Completion Reply)
| JsonSettles (c : nat).

Definition set_state (c : nat) (st : CallState) (w : World) : World :=
  set_calls (alter (fun call => {| self := self call; state := st |}) c) w.

(** Resumes call [c] with the rest of its body. *)
Definition resume (a : AdapterRef) (c : nat) (prog : Async) (w : World) : World :=
  let '(st, w') := run a c prog w in set_state c st w'.

(** The response object [fetch] resolves with. *)
Definition response_of (r : nat) (rp : Reply) : Response :=
  {| request := r; status := reply_status rp; json := reply_json rp |}.

(** What the promise returned by [fetch] settles to: the reply, unless the
    signal was aborted in the meantime. *)
Definition fetch_outcome (w : World) (r : nat) (reply : Completion Reply)
  : Completion Response :=
  if request_aborted w r then Throw AbortError
  else match reply with
       | Normal rp => Normal (response_of r rp)
       | Throw e => Throw e
       end.

(** What [res.json()] settles to: an aborted fetch errors the body. *)
Definition json_outcome (w : World) (res : Response) : Completion JSValue :=
  if request_aborted w (request res) then Throw AbortError else json res.

(** One event. [None]: the event cannot happen in this world (no such
    adapter, or the call does not await that). *)
Definition step (ev : Event) (w : World) : option World :=
  match ev with
  | Construct loader options => Some (snd (new_Adapter loader options w))
  | CallUpload a =>
      if decide (a < length (adapters w)) then
        let '(st, w') := run a (length (calls w)) upload w in
        Some (set_calls (fun l => l ++ [{| self := a; state := st |}]) w')
      else None
  | CallAbort a => snd <$> abort a w
  | FileSettles c =>
      match calls w !! c with
      | Some {| self := a; state := OnFile p k |} =>
          Some (resume a c (Try p k) w)
      | _ => None
      end
  | FetchSettles c reply =>
      match calls w !! c with
      | Some {| self := a; state := OnFetch r k |} =>
          Some (resume a c (Try (fetch_outcome w r reply) k) w)
      | _ => None
      end
  | JsonSettles c =>
      match calls w !! c with
      | Some {| self := a; state := OnJson res k |} =>
          Some (resume a c (Try (json_outcome w res) k) w)
      | _ => None
      end
  end.

(** A sequence of events, in order. *)
Fixpoint exec (evs : list Event) (w : World) : option World :=
  match evs with
  | [] => Some w
  | ev :: evs' => w' ← step ev w; exec evs' w'
  end.

(** The settlement of call [c], once it has settled. *)
Definition result_of (w : World) (c : nat) : option (Completion JSValue) :=
  call ← calls w !! c;
  match state call with
  | Settled o => Some o
  | _ => None
  end.

(** The requests call [c] has issued. *)
Definition requests_of (w : World) (c : nat) : list Request :=
  filter (fun rq => by_call rq = c) (requests w).

(** ** The stages of [upload] *)

(** The rest of [upload]'s body at each of its [await]s, named so that a
    suspended call can be recognised. [upload_stages] below checks that they
    compose to [upload]. *)
Definition upload_init (signal : CtrlRef) (preset file : JSValue) : RequestInit :=
  {| method := Some "POST";
     headers := None;
     body := Some [("upload_preset", preset); ("file", file)];
     signal := Some signal |}.

Definition upload_on_json : JSValue -> Async :=
  fun parsed =>
    Try (get_prop parsed "secure_url")
        (fun secure_url => Return (JObj {[ "default" := secure_url ]})).

Definition upload_on_response : Response -> Async :=
  fun res => AwaitJson res upload_on_json.

Definition upload_on_file (signal : CtrlRef) (preset : JSValue) : JSValue -> Async :=
  fun file =>
    ReadThis (fun this =>
    Try (get_prop (options this) "CLOUDINARY_UPLOAD_URL") (fun url =>
    AwaitFetch url (upload_init signal preset file) upload_on_response)).

(** ** What each event does to a call of [upload] *)

(** The state of a fresh call on [this], whose controller is [c]. *)
Definition started_state (c : CtrlRef) (this : Adapter) : CallState :=
  match get_prop (options this) "CLOUDINARY_UPLOAD_PRESET" with
  | Normal preset => OnFile (file (loader this)) (upload_on_file c preset)
  | Throw e => Settled (Throw e)
  end.

(** The world after [upload()] was called on adapter [a]. *)
Definition started (a : AdapterRef) (this : Adapter) (w : World) : World :=
  let c := length (controllers w) in
  set_calls (fun l => l ++ [{| self := a; state := started_state c this |}])
    (set_adapters (alter (with_abortController c) a)
       (set_controllers (fun h => h ++ [false]) w)).

(** The request [upload] issues. *)
Definition upload_request (me : nat) (signal : CtrlRef)
    (url preset file : JSValue) : Request :=
  {| by_call := me; input := url; init_of := upload_init signal preset file |}.

(** The world after the file promise settled for call [c], suspended with
    [upload_on_file signal preset]. *)
Definition file_settled (c : nat) (this : Adapter) (signal : CtrlRef)
    (preset : JSValue) (p : Completion JSValue) (w : World) : World :=
  match p with
  | Throw e => set_state c (Settled (Throw e)) w
  | Normal f =>
      match get_prop (options this) "CLOUDINARY_UPLOAD_URL" with
      | Throw e => set_state c (Settled (Throw e)) w
      | Normal url =>
          if signal_aborted w (Some signal)
          then set_state c (Settled (Throw AbortError)) w
          else set_state c (OnFetch (length (requests w)) upload_on_response)
                 (set_requests
                    (fun l => l ++ [upload_request c signal url preset f]) w)
      end
  end.

(** The state of a call after the promise of [fetch] settled with [o]. *)
Definition fetch_settled_state (o : Completion Response) : CallState :=
  match o with
  | Normal res => OnJson res upload_on_json
  | Throw e => Settled (Throw e)
  end.

(** The state of a call after the body promise settled with [o]. *)
Definition json_settled_state (o : Completion JSValue) : CallState :=
  match o with
  | Normal parsed =>
      match get_prop parsed "secure_url" with
      | Normal secure_url => Settled (Normal (JObj {[ "default" := secure_url ]}))
      | Throw e => Settled (Throw e)
      end
  | Throw e => Settled (Throw e)
  end.

(** ** Worlds that arise *)

(** The worlds the host and the environment can produce. *)
Definition reachable (w : World) : Prop :=
  exists evs, exec evs empty_world = Some w.

(** The adapter call [c] was made on. *)
Definition owner (w : World) (c : nat) : option AdapterRef :=
  self <$> calls w !! c.

(** What the constructor bound adapter [a] to. *)
Definition bound (w : World) (a : AdapterRef) : option (FileLoader * JSValue) :=
  (fun this => (loader this, options this)) <$> adapters w !! a.

(** [w'] keeps what [w] has settled: who made a call, what an adapter is
    bound to, the requests issued, the signals aborted, the cancellations
    delivered. *)
Record extends (w w' : World) : Prop := {
  ext_owner : forall c a, owner w c = Some a -> owner w' c = Some a;
  ext_bound : forall a x, bound w a = Some x -> bound w' a = Some x;
  ext_requests : exists more, requests w' = requests w ++ more;
  ext_aborted :
    forall c, controllers w !! c = Some true -> controllers w' !! c = Some true;
  ext_cancelled : exists more, cancelled w' = cancelled w ++ more;
}.

(** A request is the one [upload] builds for the adapter of its call: the
    configured endpoint, the preset and the loader's file in the body, the
    call's own signal. In a reachable world the controller of call [c] is
    controller [c]: each call of [upload] creates exactly one. *)
Definition request_ok (w : World) (rq : Request) : Prop :=
  exists a ld opts preset f,
    owner w (by_call rq) = Some a
    /\ bound w a = Some (ld, opts)
    /\ get_prop opts "CLOUDINARY_UPLOAD_PRESET" = Normal preset
    /\ file ld = Normal f
    /\ get_prop opts "CLOUDINARY_UPLOAD_URL" = Normal (input rq)
    /\ init_of rq = upload_init (by_call rq) preset f.

(** A call is at one of the stages of [upload], with the requests that stage
    has behind it. *)
Inductive call_ok (w : World) (c : nat) : Call -> Prop :=
| ok_file a ld opts preset :
    bound w a = Some (ld, opts) ->
    get_prop opts "CLOUDINARY_UPLOAD_PRESET" = Normal preset ->
    requests_of w c = [] ->
    call_ok w c {| self := a;
                   state := OnFile (file ld) (upload_on_file c preset) |}
| ok_fetch a r rq :
    requests w !! r = Some rq ->
    requests_of w c = [rq] ->
    call_ok w c {| self := a; state := OnFetch r upload_on_response |}
| ok_json a res rq :
    requests w !! request res = Some rq ->
    requests_of w c = [rq] ->
    call_ok w c {| self := a; state := OnJson res upload_on_json |}
| ok_resolved a v rq :
    requests_of w c = [rq] ->
    call_ok w c {| self := a; state := Settled (Normal v) |}
| ok_rejected a e :
    length (requests_of w c) <= 1 ->
    call_ok w c {| self := a; state := Settled (Throw e) |}.

(** The invariant of reachable worlds. *)
Record wf (w : World) : Prop := {
  wf_controllers : length (controllers w) = length (calls w);
  wf_adapter :
    forall a this c,
      adapters w !! a = Some this -> abortController this = Some c ->
      owner w c = Some a;
  wf_owner : forall c a, owner w c = Some a -> a < length (adapters w);
  wf_call : forall c call, calls w !! c = Some call -> call_ok w c call;
  wf_request : forall r rq, requests w !! r = Some rq -> request_ok w rq;
  wf_cancelled_nodup : NoDup (cancelled w);
  wf_cancelled_aborted :
    forall r, r ∈ cancelled w -> request_aborted w r = true;
}.

(** The adapter an event acts on: the one whose method is called, or the one
    whose call is resumed. *)
Definition target (w : World) (ev : Event) : option AdapterRef :=
  match ev with
  | Construct _ _ => None
  | CallUpload a | CallAbort a => Some a
  | FileSettles c | FetchSettles c _ | JsonSettles c => owner w c
  end.

(** The cancellations delivered for the requests of call [c]. *)
Definition cancelled_of (w : World) (c : nat) : list nat :=
  filter (fun r => by_call <$> requests w !! r = Some c) (cancelled w).

(** Whether a call has got as far as awaiting the response to its request. *)
Definition past_fetch (st : CallState) : bool :=
  match st with
  | OnFetch _ _ | OnJson _ _ | Settled (Normal _) => true
  | OnFile _ _ | Settled (Throw _) => false
  end.

(** Whether a call still awaits the loader's file. *)
Definition on_file (st : CallState) : bool :=
  match st with
  | OnFile _ _ => true
  | _ => false
  end.

(** The call an event resumes. *)
Definition settles (ev : Event) : option nat :=
  match ev with
  | FileSettles c | FetchSettles c _ | JsonSettles c => Some c
  | Construct _ _ | CallUpload _ | CallAbort _ => None
  end.

(** Call [c] was aborted with its request in flight: its signal is aborted,
    and it still awaits the network or has rejected with [AbortError]. *)
Definition aborted_in_flight (w : World) (c : nat) : Prop :=
  controllers w !! c = Some true
  /\ exists call,
       calls w !! c = Some call
       /\ (is_Some (pending_request (state call))
           \/ state call = Settled (Throw AbortError)).

(** How many times the transport was told to cancel request [r]. *)
Definition cancellations (w : World) (r : nat) : nat :=
  length (filter (fun r' => r' = r) (cancelled w)).

(** The event that resumes a call awaiting the network: the response
    arrives (or the request fails), or the body has been read. *)
Definition network_event (st : CallState) (c : nat) (reply : Completion Reply)
  : Event :=
  match st with
  | OnJson _ _ => JsonSettles c
  | _ => FetchSettles c reply
  end.

(** What [upload] settles to once the body promise has settled with [o]:
    a function of the body alone. *)
Definition json_result (o : Completion JSValue) : Completion JSValue :=
  match json_settled_state o with
  | Settled result => result
  | _ => o
  end.

(** ** The plugin *)

(** Modelled from the spec: the host's file repository (its class is in
    [src/filerepository.js], which is not among the sources): "a
    factory-registration slot accepting a function (loader) ->
    AdapterInstance". [None] is an empty slot. *)
Record FileRepository := {
  createUploadAdapter : option (FileLoader -> World -> AdapterRef * World);
}.

(** The editor as [init] sees it: the configuration store, the file
    repository plugin, and the console, as the list of messages it was
    given. *)
Record Editor := {
  config : gmap string JSValue;
  fileRepository : FileRepository;
  console : list string;
}.

(** [editor.config.get( name )] for a top-level name. *)
Definition config_get (ed : Editor) (name : string) : JSValue :=
  default JUndefined (config ed !! name).

Definition console_warn (msg : string) (ed : Editor) : Editor :=
  {| config := config ed; fileRepository := fileRepository ed;
     console := console ed ++ [msg] |}.

Definition set_createUploadAdapter
    (f : FileLoader -> World -> AdapterRef * World) (ed : Editor) : Editor :=
  {| config := config ed;
     fileRepository := {| createUploadAdapter := Some f |};
     console := console ed |}.

Definition dquote : string := String (Ascii.ascii_of_nat 34) EmptyString.

(** The text handed to [attachLinkToDocumentation]. *)
Definition missing_uploadUrl_message : string :=
  "simple-upload-adapter-missing-uploadUrl: Missing the " +:+ dquote +:+
  "uploadUrl" +:+ dquote +:+ " property in the " +:+ dquote +:+
  "simpleUpload" +:+ dquote +:+ " editor configuration.".

Section Plugin.

(** From [@ckeditor/ckeditor5-utils]; what it returns is logged as is. *)
Variable attachLinkToDocumentation : string -> string.

(** [SimpleUploadAdapter.init()]. *)
Definition init (ed : Editor) : Completion Editor :=
  let options := config_get ed "simpleUpload" in
  if negb (truthy options) then Normal ed
  else
    match get_prop options "uploadUrl" with
    | Throw e => Throw e
    | Normal uploadUrl =>
        if negb (truthy uploadUrl) then
          Normal (console_warn
                    (attachLinkToDocumentation missing_uploadUrl_message) ed)
        else
          Normal (set_createUploadAdapter
                    (fun loader => new_Adapter loader options) ed)
    end.

End Plugin.

(** ** Sample data *)

Definition sample_file : JSValue :=
  JFile "x.png" [Byte.x89; Byte.x50; Byte.x4e; Byte.x47].

Definition sample_loader : FileLoader := {| file := Normal sample_file |}.

(** A loader whose file promise rejects. *)
Definition failing_loader : FileLoader :=
  {| file := Throw (Thrown (JStr "the file could not be read")) |}.

(** The configuration of the class documentation: an endpoint and headers. *)
Definition documented_options : gmap string JSValue :=
  {[ "uploadUrl" := JStr "http://example.com";
     "headers" := JObj {[ "Authorization" := JStr "Bearer token" ]} ]}.

(** A configuration with the fields [upload] reads as well. *)
Definition cloudinary_options : gmap string JSValue :=
  {[ "uploadUrl" := JStr "http://example.com";
     "headers" := JObj {[ "Authorization" := JStr "Bearer token" ]};
     "CLOUDINARY_UPLOAD_URL" :=
       JStr "https://api.cloudinary.com/v1_1/demo/image/upload";
     "CLOUDINARY_UPLOAD_PRESET" := JStr "unsigned_preset" ]}.

Definition sample_editor (simpleUpload : JSValue) : Editor :=
  {| config := {[ "simpleUpload" := simpleUpload ]};
     fileRepository := {| createUploadAdapter := None |};
     console := [] |}.

Definition ok_reply : Reply :=
  {| reply_status := 200;
     reply_json :=
       Normal (JObj {[ "secure_url" := JStr "https://cdn.example.com/x.png" ]}) |}.

Definition error_reply : Reply :=
  {| reply_status := 500;
     reply_json :=
       Normal (JObj {[ "error" :=
                         JObj {[ "message" := JStr "Internal Server Error" ]} ]}) |}.


(** One adapter, nothing called yet. *)
Definition world_constructed : World :=
  snd (new_Adapter sample_loader (JObj cloudinary_options) empty_world).

Definition events_in_flight : list Event :=
  [Construct sample_loader (JObj cloudinary_options); CallUpload 0; FileSettles 0].

(** One adapter whose call of [upload()] awaits the response. *)
Definition world_in_flight : World :=
  default empty_world (exec events_in_flight empty_world).

Definition events_settled : list Event :=
  events_in_flight ++ [FetchSettles 0 (Normal ok_reply); JsonSettles 0].

(** One adapter whose call of [upload()] has resolved. *)
Definition world_settled : World :=
  default empty_world (exec events_settled empty_world).

(** The request of the call in [world_in_flight]. *)
Definition sample_request : Request :=
  {| by_call := 0;
     input := JStr "https://api.cloudinary.com/v1_1/demo/image/upload";
     init_of := upload_init 0 (JStr "unsigned_preset") sample_file |}.

(** The adapter of the sample worlds once [upload()] was called on it. *)
Definition sample_adapter : Adapter :=
  with_abortController 0
    (new_Adapter_object sample_loader (JObj cloudinary_options)).

(** ** Further notions *)

(** The test [init] puts a configuration value to before it registers the
    factory: [options] and [options.uploadUrl] both truthy. Only an object
    can pass it. *)
Definition valid_config (options : JSValue) : bool :=
  match options with
  | JObj props => truthy (default JUndefined (props !! "uploadUrl"))
  | _ => false
  end.

(** Adapter [a] has a controller: [this.abortController] is defined. *)
Definition armed (w : World) (a : AdapterRef) : Prop :=
  exists this c,
    adapters w !! a = Some this /\ abortController this = Some c.

(** The shape of what [upload] returns: an object with the one property
    [default]. *)
Definition upload_result_shape (v : JSValue) : Prop :=
  exists x, v = JObj {[ "default" := x ]}.


(** A configuration whose endpoint is the empty string. *)
Definition empty_uploadUrl_options : gmap string JSValue :=
  {[ "uploadUrl" := JStr EmptyString ]}.

Definition network_error : Exn := TypeError "Failed to fetch".

(** One adapter with two calls of [upload()], both awaiting a response. *)
Definition events_two_uploads : list Event :=
  [Construct sample_loader (JObj cloudinary_options);
   CallUpload 0; FileSettles 0; CallUpload 0; FileSettles 1].

Definition world_two_uploads : World :=
  default empty_world (exec events_two_uploads empty_world).

(** One adapter whose call of [upload()] was aborted while it awaits the
    loader's file. *)
Definition events_aborted_on_file : list Event :=
  [Construct sample_loader (JObj cloudinary_options); CallUpload 0; CallAbort 0].

Definition world_aborted_on_file : World :=
  default empty_world (exec events_aborted_on_file empty_world).

(** ** The latest call on an adapter *)

(** The position, counted from [i], of the last element of [l] equal to
    [a]. *)
Fixpoint last_index_from (i : nat) (l : list nat) (a : nat) : option nat :=
  match l with
  | [] => None
  | x :: l' =>
      match last_index_from (S i) l' a with
      | Some j => Some j
      | None => if decide (x = a) then Some i else None
      end
  end.

(** The latest call of [upload()] made on adapter [a], if any was made. *)
Definition latest_call (w : World) (a : AdapterRef) : option nat :=
  last_index_from 0 (self <$> calls w) a.

(** [this.abortController] is the controller of the adapter's latest call of
    [upload()], and undefined before the first: each call of [upload()]
    overwrites the property with the controller it creates. *)
Definition holds_latest (w : World) : Prop :=
  forall a this,
    adapters w !! a = Some this -> abortController this = latest_call w a.

(** * Properties *)

(** ** Configuration resolution *)

(** C5: when the configuration store has no [simpleUpload] value, [init]
    returns normally and leaves the editor exactly as it was: no factory is
    registered and nothing is logged. *)
Theorem init_absent_config (attach : string -> string) (ed : Editor) :
  config ed !! "simpleUpload" = None ->
  init attach ed = Normal ed.
Proof.
  intros Habsent. unfold init, config_get. by rewrite Habsent.
Qed.

Lemma init_absent_config_witness :
  init (fun m => m)
       {| config := ∅; fileRepository := {| createUploadAdapter := None |};
          console := [] |}
  = Normal {| config := ∅;
              fileRepository := {| createUploadAdapter := None |};
              console := [] |}.
Proof. apply init_absent_config. reflexivity. Defined.

(** C4: when [simpleUpload] is an object without an [uploadUrl] property,
    [init] returns normally, the file repository (and so its factory slot) is
    what it was, and the console has received exactly one more message: the
    documented form of a text that names [uploadUrl]. *)
Theorem init_missing_uploadUrl
    (attach : string -> string) (ed : Editor) (opts : gmap string JSValue) :
  config ed !! "simpleUpload" = Some (JObj opts) ->
  opts !! "uploadUrl" = None ->
  exists ed',
    init attach ed = Normal ed'
    /\ fileRepository ed' = fileRepository ed
    /\ config ed' = config ed
    /\ console ed' = console ed ++ [attach missing_uploadUrl_message]
    /\ exists before after,
         missing_uploadUrl_message = before +:+ "uploadUrl" +:+ after.
Proof.
  intros Hcfg Hmissing.
  exists (console_warn (attach missing_uploadUrl_message) ed).
  split.
  - unfold init, config_get. rewrite Hcfg. cbn. by rewrite Hmissing.
  - repeat split.
    exists "simple-upload-adapter-missing-",
      (": Missing the " +:+ dquote +:+ "uploadUrl" +:+ dquote +:+
       " property in the " +:+ dquote +:+ "simpleUpload" +:+ dquote +:+
       " editor configuration.").
    reflexivity.
Qed.

Lemma init_missing_uploadUrl_witness :
  exists ed',
    init (fun m => m)
         {| config := {[ "simpleUpload" := JObj {[ "headers" := JObj ∅ ]} ]};
            fileRepository := {| createUploadAdapter := None |};
            console := [] |} = Normal ed'
    /\ createUploadAdapter (fileRepository ed') = None
    /\ console ed' = [missing_uploadUrl_message].
Proof.
  destruct (init_missing_uploadUrl (fun m => m)
              {| config := {[ "simpleUpload" := JObj {[ "headers" := JObj ∅ ]} ]};
                 fileRepository := {| createUploadAdapter := None |};
                 console := [] |}
              {[ "headers" := JObj ∅ ]})
    as (ed' & Hinit & Hrepo & _ & Hlog & _); [reflexivity | reflexivity |].
  exists ed'. rewrite Hrepo, Hlog. auto.
Defined.

(** ** The stages compose to [upload] *)

Lemma upload_stages :
  upload =
  NewAbortController (fun c =>
  SetAbortController c (
  ReadThis (fun this =>
  Try (get_prop (options this) "CLOUDINARY_UPLOAD_PRESET") (fun preset =>
  ReadThis (fun this' =>
  AwaitFile (file (loader this')) (upload_on_file c preset)))))).
Proof. reflexivity. Qed.

(** ** Stepping a call *)

Section Stepping.

Implicit Types (w : World) (a : AdapterRef) (c r : nat) (this : Adapter).

Lemma step_CallUpload w a this :
  adapters w !! a = Some this ->
  step (CallUpload a) w = Some (started a this w).
Proof.
  intros Hthis. unfold step.
  rewrite decide_True by (by eapply lookup_lt_Some).
  rewrite upload_stages. cbn [run].
  cbn [adapters set_adapters set_controllers].
  rewrite list_lookup_alter_eq, Hthis. cbn [fmap option_fmap option_map].
  unfold started, started_state.
  cbn [options loader with_abortController].
  destruct (get_prop (options this) "CLOUDINARY_UPLOAD_PRESET"); cbn.
  - rewrite list_lookup_alter_eq, Hthis. reflexivity.
  - reflexivity.
Qed.

Lemma step_FileSettles w c a this signal preset p :
  calls w !! c = Some {| self := a; state := OnFile p (upload_on_file signal preset) |} ->
  adapters w !! a = Some this ->
  step (FileSettles c) w = Some (file_settled c this signal preset p w).
Proof.
  intros Hcall Hthis. unfold step. rewrite Hcall.
  unfold resume, file_settled. destruct p as [f|e]; cbn.
  - rewrite Hthis.
    destruct (get_prop (options this) "CLOUDINARY_UPLOAD_URL"); cbn.
    + destruct (default false (controllers w !! signal)); reflexivity.
    + reflexivity.
  - reflexivity.
Qed.

Lemma step_FetchSettles w c a r reply :
  calls w !! c = Some {| self := a; state := OnFetch r upload_on_response |} ->
  step (FetchSettles c reply) w
  = Some (set_state c (fetch_settled_state (fetch_outcome w r reply)) w).
Proof.
  intros Hcall. unfold step. rewrite Hcall. unfold resume.
  destruct (fetch_outcome w r reply); reflexivity.
Qed.

Lemma step_JsonSettles w c a res :
  calls w !! c = Some {| self := a; state := OnJson res upload_on_json |} ->
  step (JsonSettles c) w
  = Some (set_state c (json_settled_state (json_outcome w res)) w).
Proof.
  intros Hcall. unfold step. rewrite Hcall. unfold resume.
  unfold json_settled_state, upload_on_json.
  destruct (json_outcome w res) as [parsed|e]; cbn; [|reflexivity].
  destruct (get_prop parsed "secure_url"); reflexivity.
Qed.

End Stepping.

(** ** Every event extends the world *)

Section Extends.

Implicit Types (w : World) (a : AdapterRef) (c r : nat).

Lemma extends_refl w : extends w w.
Proof. split; auto; by exists []; rewrite app_nil_r. Qed.

Lemma extends_trans w1 w2 w3 : extends w1 w2 -> extends w2 w3 -> extends w1 w3.
Proof.
  intros [Ho1 Hb1 [rs1 Hr1] Ha1 [cs1 Hc1]] [Ho2 Hb2 [rs2 Hr2] Ha2 [cs2 Hc2]].
  split; auto.
  - exists (rs1 ++ rs2). by rewrite Hr2, Hr1, app_assoc.
  - exists (cs1 ++ cs2). by rewrite Hc2, Hc1, app_assoc.
Qed.

Lemma bound_alter w a c b :
  bound (set_adapters (alter (with_abortController c) a) w) b = bound w b.
Proof.
  unfold bound. cbn. destruct (decide (a = b)) as [->|Hne].
  - rewrite list_lookup_alter_eq. by destruct (adapters w !! b).
  - by rewrite list_lookup_alter_ne.
Qed.

Lemma owner_set_state w c st c' : owner (set_state c st w) c' = owner w c'.
Proof.
  unfold owner. cbn. destruct (decide (c = c')) as [->|Hne].
  - rewrite list_lookup_alter_eq. by destruct (calls w !! c').
  - by rewrite list_lookup_alter_ne.
Qed.

Lemma extends_set_adapters_alter w a c :
  extends w (set_adapters (alter (with_abortController c) a) w).
Proof.
  split; auto; try (by exists []; rewrite app_nil_r).
  intros b x. by rewrite bound_alter.
Qed.

Lemma extends_set_adapters_snoc w this :
  extends w (set_adapters (fun h => h ++ [this]) w).
Proof.
  split; auto; try (by exists []; rewrite app_nil_r).
  intros b x. unfold bound. cbn. intros Hb.
  destruct (adapters w !! b) as [this'|] eqn:Hlook; [|done].
  by rewrite (lookup_app_l_Some _ _ _ _ Hlook).
Qed.

Lemma extends_set_controllers_snoc w flag :
  extends w (set_controllers (fun h => h ++ [flag]) w).
Proof.
  split; auto; try (by exists []; rewrite app_nil_r).
  intros c Hc. cbn. by apply lookup_app_l_Some.
Qed.

Lemma extends_set_requests_snoc w rq :
  extends w (set_requests (fun l => l ++ [rq]) w).
Proof.
  split; auto; try (by exists []; rewrite app_nil_r). by exists [rq].
Qed.

Lemma extends_set_calls_snoc w call :
  extends w (set_calls (fun l => l ++ [call]) w).
Proof.
  split; auto; try (by exists []; rewrite app_nil_r).
  intros c a. unfold owner. cbn. intros Hc.
  destruct (calls w !! c) as [call'|] eqn:Hlook; [|done].
  by rewrite (lookup_app_l_Some _ _ _ _ Hlook).
Qed.

Lemma extends_set_state w c st : extends w (set_state c st w).
Proof.
  split; auto; try (by exists []; rewrite app_nil_r).
  intros c' a. by rewrite owner_set_state.
Qed.

Lemma extends_AbortController_abort w c :
  extends w (AbortController_abort c w).
Proof.
  unfold AbortController_abort.
  destruct (controllers w !! c) as [[]|] eqn:Hc; try apply extends_refl.
  split; auto; try (by exists []; rewrite app_nil_r).
  - intros c' Hc'. cbn. rewrite list_lookup_insert_ne; [done|].
    intros ->. congruence.
  - by eexists.
Qed.

Lemma run_extends a me prog w : extends w (snd (run a me prog w)).
Proof.
  revert w. induction prog as [v|e|k IH|k IH|c k IH|p k _|url init k _|res k _];
    intros w; cbn [run]; try apply extends_refl.
  - destruct (adapters w !! a); [apply IH | apply extends_refl].
  - eapply extends_trans; [apply extends_set_controllers_snoc | apply IH].
  - eapply extends_trans; [apply extends_set_adapters_alter | apply IH].
  - destruct (signal_aborted w (signal init)); cbn;
      [apply extends_refl | apply extends_set_requests_snoc].
Qed.

Lemma resume_extends a c prog w : extends w (resume a c prog w).
Proof.
  unfold resume. pose proof (run_extends a c prog w) as Hrun.
  destruct (run a c prog w) as [st w1]. cbn in Hrun.
  eapply extends_trans; [exact Hrun | apply extends_set_state].
Qed.

Lemma step_extends ev w w' : step ev w = Some w' -> extends w w'.
Proof.
  destruct ev as [ld opts|a|a|c|c reply|c]; cbn [step].
  - intros [= <-]. apply extends_set_adapters_snoc.
  - destruct (decide (a < length (adapters w))); [|done].
    pose proof (run_extends a (length (calls w)) upload w) as Hrun.
    destruct (run a (length (calls w)) upload w) as [st w1]. cbn in Hrun.
    intros [= <-].
    eapply extends_trans; [exact Hrun | apply extends_set_calls_snoc].
  - unfold abort. destruct (adapters w !! a) as [this|]; [|done]. cbn.
    destruct (abortController this); intros [= <-];
      [apply extends_AbortController_abort | apply extends_refl].
  - destruct (calls w !! c) as [[a []]|]; try done.
    intros [= <-]. apply resume_extends.
  - destruct (calls w !! c) as [[a []]|]; try done.
    intros [= <-]. apply resume_extends.
  - destruct (calls w !! c) as [[a []]|]; try done.
    intros [= <-]. apply resume_extends.
Qed.

Lemma exec_extends evs w w' : exec evs w = Some w' -> extends w w'.
Proof.
  revert w. induction evs as [|ev evs IH]; intros w; cbn.
  - intros [= <-]. apply extends_refl.
  - destruct (step ev w) as [w1|] eqn:Hstep; [|done]. cbn. intros Hexec.
    eapply extends_trans; [by eapply step_extends | by apply IH].
Qed.

End Extends.

(** ** Running one call from start to end *)

Lemma exec_app (evs1 evs2 : list Event) (w : World) :
  exec (evs1 ++ evs2) w = exec evs1 w ≫= exec evs2.
Proof.
  revert w. induction evs1 as [|ev evs1 IH]; intros w; cbn; [done|].
  destruct (step ev w) as [w'|]; cbn; [apply IH | done].
Qed.

Lemma get_prop_truthy (v : JSValue) (k : string) :
  truthy v = true -> exists x, get_prop v k = Normal x.
Proof. destruct v; cbn; intros Hv; try discriminate; eauto. Qed.

Lemma lookup_snoc_length {A} (l : list A) (x : A) :
  (l ++ [x]) !! length l = Some x.
Proof. by apply list_lookup_middle. Qed.

Lemma set_state_lookup (w : World) (c : nat) (st : CallState) (call : Call) :
  calls w !! c = Some call ->
  calls (set_state c st w) !! c = Some {| self := self call; state := st |}.
Proof.
  intros Hcall. unfold set_state. cbn.
  by rewrite list_lookup_alter_eq, Hcall.
Qed.

Lemma result_of_set_state (w : World) (c : nat) (o : Completion JSValue) :
  c < length (calls w) ->
  result_of (set_state c (Settled o) w) c = Some o.
Proof.
  intros Hc. destruct (lookup_lt_is_Some_2 _ _ Hc) as [call Hcall].
  unfold result_of. by rewrite (set_state_lookup _ _ _ _ Hcall).
Qed.

(** A call of [upload()] on an adapter whose options are an object and whose
    loader delivers a file [f] reaches [fetch] after the file promise
    settles, in any world: exactly one request is added, the one described
    by [upload_request], and its signal is not aborted. *)
Lemma upload_until_fetch (w : World) (a : AdapterRef) (this : Adapter)
    (preset url f : JSValue) :
  adapters w !! a = Some this ->
  get_prop (options this) "CLOUDINARY_UPLOAD_PRESET" = Normal preset ->
  get_prop (options this) "CLOUDINARY_UPLOAD_URL" = Normal url ->
  file (loader this) = Normal f ->
  let c := length (calls w) in
  let r := length (requests w) in
  exists w2,
    exec [CallUpload a; FileSettles c] w = Some w2
    /\ calls w2 !! c = Some {| self := a; state := OnFetch r upload_on_response |}
    /\ length (calls w2) = S c
    /\ requests w2
       = requests w ++ [upload_request c (length (controllers w)) url preset f]
    /\ request_aborted w2 r = false
    /\ cancelled w2 = cancelled w.
Proof.
  intros Hthis Hpreset Hurl Hfile c r.
  pose (s := length (controllers w)).
  assert (Hcall : calls (started a this w) !! c
                  = Some {| self := a;
                            state := OnFile (Normal f) (upload_on_file s preset) |}).
  { unfold started, started_state. rewrite Hpreset, Hfile. cbn.
    apply lookup_snoc_length. }
  assert (Hthis' : adapters (started a this w) !! a
                   = Some (with_abortController s this)).
  { unfold started. cbn. by rewrite list_lookup_alter_eq, Hthis. }
  eexists. split.
  { cbn [exec]. rewrite (step_CallUpload _ _ _ Hthis). cbn [mbind option_bind].
    rewrite (step_FileSettles _ _ _ _ _ _ _ Hcall Hthis'). reflexivity. }
  unfold file_settled. cbn [options with_abortController]. rewrite Hurl.
  assert (Hfresh : signal_aborted (started a this w) (Some s) = false).
  { unfold started, s. cbn. by rewrite lookup_snoc_length. }
  rewrite Hfresh. repeat split.
  - exact (set_state_lookup
             (set_requests (fun l => l ++ [upload_request c s url preset f])
                (started a this w)) c _ _ Hcall).
  - cbn. rewrite length_alter, length_app. cbn. lia.
  - unfold request_aborted, r. cbn.
    rewrite lookup_snoc_length. cbn. unfold s. by rewrite lookup_snoc_length.
Qed.

(** ** The response *)

Lemma json_settled_state_result (o : Completion JSValue) :
  json_settled_state o = Settled (json_result o).
Proof.
  unfold json_result, json_settled_state.
  destruct o as [parsed|e]; [|done]. by destruct (get_prop parsed "secure_url").
Qed.

(** A whole call, answered and not aborted: it settles to what the body of
    the response determines. *)
Lemma upload_completes
    (w : World) (a : AdapterRef) (this : Adapter) (f : JSValue) (reply : Reply) :
  adapters w !! a = Some this ->
  truthy (options this) = true ->
  file (loader this) = Normal f ->
  let c := length (calls w) in
  exists w',
    exec [CallUpload a; FileSettles c; FetchSettles c (Normal reply);
          JsonSettles c] w = Some w'
    /\ result_of w' c = Some (json_result (reply_json reply)).
Proof.
  intros Hthis Hopts Hfile c.
  destruct (get_prop_truthy _ "CLOUDINARY_UPLOAD_PRESET" Hopts) as [preset Hp].
  destruct (get_prop_truthy _ "CLOUDINARY_UPLOAD_URL" Hopts) as [url Hu].
  destruct (upload_until_fetch w a this preset url f Hthis Hp Hu Hfile)
    as (w2 & Hexec & Hcall & Hlen & _ & Hlive & _).
  change [CallUpload a; FileSettles c; FetchSettles c (Normal reply); JsonSettles c]
    with ([CallUpload a; FileSettles c]
            ++ [FetchSettles c (Normal reply); JsonSettles c]).
  set (w3 := set_state c (OnJson (response_of (length (requests w)) reply)
                            upload_on_json) w2).
  assert (Hcall3 : calls w3 !! c
                   = Some {| self := a;
                             state := OnJson (response_of (length (requests w)) reply)
                                        upload_on_json |})
    by exact (set_state_lookup _ _ _ _ Hcall).
  exists (set_state c
            (json_settled_state
               (json_outcome w3 (response_of (length (requests w)) reply)))
            w3).
  split.
  { rewrite exec_app. fold c in Hexec. rewrite Hexec.
    cbn [mbind option_bind exec].
    rewrite (step_FetchSettles _ _ _ _ _ Hcall). cbn [mbind option_bind].
    unfold fetch_outcome. rewrite Hlive. cbn [fetch_settled_state].
    fold c w3. by rewrite (step_JsonSettles _ _ _ _ Hcall3). }
  unfold json_outcome. cbn [request response_of json].
  change (request_aborted w3 ?r) with (request_aborted w2 r).
  rewrite Hlive, json_settled_state_result.
  apply result_of_set_state. unfold w3. cbn. rewrite length_alter. lia.
Qed.

(** ** The invariant *)

Section ListFacts.

Context {A B : Type} (f : A -> option B) (P : B -> Prop)
        `{!forall y, Decision (P y)}.

Lemma omap_cons (x : A) (l : list A) :
  omap f (x :: l)
  = match f x with Some y => y :: omap f l | None => omap f l end.
Proof. reflexivity. Qed.

Lemma filter_omap_none (l : list A) :
  (forall i x y, l !! i = Some x -> f x = Some y -> ~ P y) ->
  filter P (omap f l) = [].
Proof.
  induction l as [|x l IH]; intros Hl; [done|]. rewrite omap_cons.
  specialize (IH (fun i => Hl (S i))).
  destruct (f x) as [y|] eqn:Hfx; [|done].
  rewrite filter_cons_False; [done|]. by apply (Hl 0 x).
Qed.

(** When only the element at index [c] can pass the filter. *)
Lemma filter_omap_index (l : list A) (c : nat) :
  (forall i x y, l !! i = Some x -> f x = Some y -> (P y <-> i = c)) ->
  filter P (omap f l)
  = match l !! c with Some x => option_list (f x) | None => [] end.
Proof.
  revert c. induction l as [|x l IH]; intros c Hl; [done|].
  rewrite omap_cons. destruct c as [|c]; cbn [lookup list_lookup].
  - destruct (f x) as [y|] eqn:Hfx.
    + rewrite filter_cons_True by (by apply (Hl 0 x)).
      change (option_list (Some y)) with [y]. f_equal. apply filter_omap_none. intros i x' y' Hi Hf HP.
      by apply (Hl (S i) x' y') in HP.
    + apply filter_omap_none. intros i x' y' Hi Hf HP.
      by apply (Hl (S i) x' y') in HP.
  - destruct (f x) as [y|] eqn:Hfx.
    + rewrite filter_cons_False.
      * apply IH. intros i x' y' Hi Hf. rewrite (Hl (S i) x' y' Hi Hf). lia.
      * intros HP. by apply (Hl 0 x y) in HP.
    + apply IH. intros i x' y' Hi Hf. rewrite (Hl (S i) x' y' Hi Hf). lia.
Qed.

End ListFacts.

Lemma filter_none {A} (P : A -> Prop) `{!forall x, Decision (P x)} (l : list A) :
  (forall x, x ∈ l -> ~ P x) -> filter P l = [].
Proof.
  induction l as [|x l IH]; intros Hl; [done|].
  rewrite filter_cons_False by (apply Hl; by left).
  apply IH. intros y Hy. apply Hl. by right.
Qed.

Lemma filter_ext_elem {A} (P Q : A -> Prop)
    `{!forall x, Decision (P x)} `{!forall x, Decision (Q x)} (l : list A) :
  (forall x, x ∈ l -> (P x <-> Q x)) -> filter P l = filter Q l.
Proof.
  induction l as [|x l IH]; intros Hl; [done|].
  assert (Hx : P x <-> Q x) by (apply Hl; by left).
  assert (Htl : filter P l = filter Q l).
  { apply IH. intros y Hy. apply Hl. by right. }
  destruct (decide (P x)) as [HP|HP].
  - rewrite !filter_cons_True by tauto. by f_equal.
  - rewrite !filter_cons_False by tauto. done.
Qed.

Section Invariant.

Implicit Types (w : World) (a : AdapterRef) (c r : nat) (rq : Request).

Lemma request_ok_extends w w' rq :
  extends w w' -> request_ok w rq -> request_ok w' rq.
Proof.
  intros Hext (a & ld & opts & preset & f & Ho & Hb & Hrest).
  exists a, ld, opts, preset, f.
  split; [by apply (ext_owner _ _ Hext)|].
  split; [by apply (ext_bound _ _ Hext) | done].
Qed.

Lemma request_aborted_extends w w' r :
  extends w w' -> request_aborted w r = true -> request_aborted w' r = true.
Proof.
  intros Hext. unfold request_aborted.
  destruct (requests w !! r) as [rq|] eqn:Hr; [|done].
  destruct (ext_requests _ _ Hext) as [more ->].
  rewrite (lookup_app_l_Some _ _ _ _ Hr).
  unfold signal_aborted. destruct (signal (init_of rq)) as [c|]; [|done].
  destruct (controllers w !! c) as [[]|] eqn:Hc; try done.
  by rewrite (ext_aborted _ _ Hext _ Hc).
Qed.

Lemma requests_of_snoc w rq c :
  requests_of (set_requests (fun l => l ++ [rq]) w) c
  = requests_of w c ++ (if decide (by_call rq = c) then [rq] else []).
Proof.
  unfold requests_of. cbn [requests set_requests]. by rewrite filter_app.
Qed.

Lemma requests_of_by_call w c rq : rq ∈ requests_of w c -> by_call rq = c.
Proof. unfold requests_of. by intros [? _]%list_elem_of_filter. Qed.

(** [call_ok] looks at the world only through what adapters are bound to
    and the requests. *)
Lemma call_ok_mono w w' c call :
  (forall a x, bound w a = Some x -> bound w' a = Some x) ->
  (forall r rq, requests w !! r = Some rq -> requests w' !! r = Some rq) ->
  requests_of w' c = requests_of w c ->
  call_ok w c call -> call_ok w' c call.
Proof.
  intros Hb Hr Hof Hok.
  destruct Hok; econstructor; rewrite ?Hof; eauto.
Qed.

Lemma call_ok_extends_same w w' c call :
  extends w w' -> requests w' = requests w ->
  call_ok w c call -> call_ok w' c call.
Proof.
  intros Hext Hreq. apply call_ok_mono.
  - apply Hext.
  - by rewrite Hreq.
  - unfold requests_of. by rewrite Hreq.
Qed.

Lemma wf_empty : wf empty_world.
Proof.
  split; cbn; try done.
  - constructor.
  - intros r Hr. by apply elem_of_nil in Hr.
Qed.

Lemma owner_lt w c a : owner w c = Some a -> c < length (calls w).
Proof.
  unfold owner. intros Ho. apply lookup_lt_is_Some.
  destruct (calls w !! c); [eauto | done].
Qed.

Lemma wf_by_call_lt w r rq :
  wf w -> requests w !! r = Some rq -> by_call rq < length (calls w).
Proof.
  intros Hwf Hr. destruct (wf_request _ Hwf _ _ Hr) as (a & ? & ? & ? & ? & Ho & _).
  by eapply owner_lt.
Qed.

Lemma requests_of_fresh w c :
  wf w -> length (calls w) <= c -> requests_of w c = [].
Proof.
  intros Hwf Hc. unfold requests_of. apply filter_none.
  intros rq [r Hr]%list_elem_of_lookup Hby.
  pose proof (wf_by_call_lt _ _ _ Hwf Hr). lia.
Qed.

(** The request a suspended call has in flight is its own and carries the
    signal of its own controller. *)
Lemma pending_request_signal w c call r :
  wf w -> calls w !! c = Some call ->
  pending_request (state call) = Some r ->
  exists rq, requests w !! r = Some rq /\ by_call rq = c
             /\ signal (init_of rq) = Some c /\ requests_of w c = [rq].
Proof.
  intros Hwf Hcall Hpend.
  assert (Hshape : exists rq, requests w !! r = Some rq /\ requests_of w c = [rq]).
  { destruct (wf_call _ Hwf _ _ Hcall); cbn in Hpend;
      try discriminate; injection Hpend as <-; eauto. }
  destruct Hshape as (rq & Hr & Hof). exists rq.
  assert (Hby : by_call rq = c).
  { apply (requests_of_by_call w). rewrite Hof. by left. }
  repeat split; try done.
  destruct (wf_request _ Hwf _ _ Hr) as (? & ? & ? & ? & ? & _ & _ & _ & _ & _ & ->).
  cbn. by rewrite Hby.
Qed.

Lemma in_flight_with_wf w c :
  wf w ->
  in_flight_with c w
  = match calls w !! c with
    | Some call => option_list (pending_request (state call))
    | None => []
    end.
Proof.
  intros Hwf. unfold in_flight_with.
  apply (filter_omap_index (pending_request ∘ state)).
  intros i call r Hcall Hpend.
  destruct (pending_request_signal _ _ _ _ Hwf Hcall Hpend)
    as (rq & Hr & _ & Hsig & _).
  rewrite Hr. cbn. rewrite Hsig. split; congruence.
Qed.

End Invariant.

Section Preservation.

Implicit Types (w : World) (a : AdapterRef) (c r : nat) (rq : Request).

(** Moving one call to a stage the world supports keeps the invariant. *)
Lemma wf_set_state w c call st :
  wf w -> calls w !! c = Some call ->
  call_ok w c {| self := self call; state := st |} ->
  wf (set_state c st w).
Proof.
  intros Hwf Hcall Hok.
  pose proof (extends_set_state w c st) as Hext. split.
  - cbn. rewrite length_alter. apply Hwf.
  - intros a this c' Ha Hc. rewrite owner_set_state.
    by eapply (wf_adapter _ Hwf).
  - intros c' a. rewrite owner_set_state. apply (wf_owner _ Hwf).
  - intros c' call' Hc'. cbn in Hc'.
    apply (call_ok_extends_same w); [done..|].
    destruct (decide (c = c')) as [<-|Hne].
    + rewrite list_lookup_alter_eq, Hcall in Hc'. by injection Hc' as <-.
    + rewrite list_lookup_alter_ne in Hc' by done. by apply (wf_call _ Hwf).
  - intros r rq Hr. apply (request_ok_extends w); [done|].
    by apply (wf_request _ Hwf r).
  - apply Hwf.
  - apply (wf_cancelled_aborted _ Hwf).
Qed.

Lemma wf_new_Adapter w ld opts : wf w -> wf (snd (new_Adapter ld opts w)).
Proof.
  intros Hwf. cbn [snd new_Adapter].
  pose proof (extends_set_adapters_snoc w (new_Adapter_object ld opts)) as Hext.
  split.
  - apply Hwf.
  - intros a this c Ha Hc. cbn in Ha.
    apply lookup_app_Some in Ha as [Ha|[_ Ha]].
    + by apply (wf_adapter _ Hwf a this).
    + apply list_lookup_singleton_Some in Ha as [_ <-]. discriminate.
  - intros c a Ho. cbn. rewrite length_app. cbn.
    pose proof (wf_owner _ Hwf c a Ho). lia.
  - intros c call Hc. apply (call_ok_extends_same w); [done..|].
    by apply (wf_call _ Hwf).
  - intros r rq Hr. apply (request_ok_extends w); [done|].
    by apply (wf_request _ Hwf r).
  - apply Hwf.
  - apply (wf_cancelled_aborted _ Hwf).
Qed.

Lemma started_extends w a this : extends w (started a this w).
Proof.
  unfold started.
  eapply extends_trans; [apply extends_set_controllers_snoc|].
  eapply extends_trans; [apply extends_set_adapters_alter|].
  apply extends_set_calls_snoc.
Qed.

Lemma wf_started w a this :
  wf w -> adapters w !! a = Some this -> wf (started a this w).
Proof.
  intros Hwf Hthis. pose proof (started_extends w a this) as Hext.
  pose proof (wf_controllers _ Hwf) as Hlen.
  assert (Hnew : owner (started a this w) (length (controllers w)) = Some a).
  { unfold owner, started. cbn. rewrite Hlen. by rewrite lookup_snoc_length. }
  split.
  - unfold started. cbn. rewrite !length_app. cbn. lia.
  - intros a' this' c Ha Hc. unfold started in Ha. cbn in Ha.
    destruct (decide (a = a')) as [<-|Hne].
    + rewrite list_lookup_alter_eq, Hthis in Ha. injection Ha as <-.
      cbn in Hc. by injection Hc as <-.
    + rewrite list_lookup_alter_ne in Ha by done.
      apply (ext_owner _ _ Hext). by apply (wf_adapter _ Hwf a' this').
  - intros c a' Ho. unfold started. cbn. rewrite length_alter.
    unfold owner, started in Ho. cbn in Ho.
    destruct (decide (c < length (calls w))) as [Hc|Hc].
    + rewrite lookup_app_l in Ho by done. by apply (wf_owner _ Hwf c).
    + rewrite lookup_app_r in Ho by lia.
      destruct (c - length (calls w)) as [|n]; cbn in Ho; [|done].
      injection Ho as <-. by eapply lookup_lt_Some.
  - intros c call Hc. unfold started in Hc. cbn in Hc.
    apply lookup_app_Some in Hc as [Hc|[Hge Hc]].
    + apply (call_ok_extends_same w); [done..|]. by apply (wf_call _ Hwf).
    + apply list_lookup_singleton_Some in Hc as [Hc <-].
      assert (c = length (controllers w)) as -> by lia.
      assert (Hnone : requests_of (started a this w) (length (controllers w)) = []).
      { change (requests_of w (length (controllers w)) = []).
        apply requests_of_fresh; [done | lia]. }
      unfold started_state.
      destruct (get_prop (options this) "CLOUDINARY_UPLOAD_PRESET")
        as [preset|e] eqn:Hp.
      * apply (ok_file _ _ a (loader this) (options this) preset); try done.
        apply (ext_bound _ _ Hext). unfold bound. by rewrite Hthis.
      * apply ok_rejected. rewrite Hnone. cbn. lia.
  - intros r rq Hr. apply (request_ok_extends w); [done|].
    by apply (wf_request _ Hwf r).
  - apply Hwf.
  - intros r Hr. apply (request_aborted_extends w); [done|].
    by apply (wf_cancelled_aborted _ Hwf).
Qed.

End Preservation.

Section PreservationEvents.

Implicit Types (w : World) (a : AdapterRef) (c r : nat) (rq : Request).

Lemma in_flight_with_elem w c r :
  wf w -> r ∈ in_flight_with c w ->
  exists call rq,
    calls w !! c = Some call /\ pending_request (state call) = Some r
    /\ requests w !! r = Some rq /\ by_call rq = c
    /\ signal (init_of rq) = Some c.
Proof.
  intros Hwf. rewrite (in_flight_with_wf _ _ Hwf).
  destruct (calls w !! c) as [call|] eqn:Hcall; [|by intros ?%elem_of_nil].
  destruct (pending_request (state call)) as [r'|] eqn:Hpend;
    [|by intros ?%elem_of_nil].
  intros ->%list_elem_of_singleton.
  destruct (pending_request_signal _ _ _ _ Hwf Hcall Hpend)
    as (rq & Hr & Hby & Hsig & _).
  by exists call, rq.
Qed.

Lemma in_flight_with_NoDup w c : wf w -> NoDup (in_flight_with c w).
Proof.
  intros Hwf. rewrite (in_flight_with_wf _ _ Hwf).
  destruct (calls w !! c) as [call|]; [|constructor].
  destruct (pending_request (state call)); [apply NoDup_singleton | constructor].
Qed.

Lemma wf_AbortController_abort w c : wf w -> wf (AbortController_abort c w).
Proof.
  intros Hwf. pose proof (extends_AbortController_abort w c) as Hext.
  unfold AbortController_abort in *.
  destruct (controllers w !! c) as [[]|] eqn:Hc; try done.
  split.
  - cbn. rewrite length_insert. apply Hwf.
  - apply (wf_adapter _ Hwf).
  - apply (wf_owner _ Hwf).
  - intros c' call Hc'. apply (call_ok_extends_same w); [done..|].
    by apply (wf_call _ Hwf).
  - intros r rq Hr. apply (request_ok_extends w); [done|].
    by apply (wf_request _ Hwf r).
  - cbn. apply NoDup_app. split; [apply Hwf|]. split.
    + intros r Hold Hnew.
      apply (wf_cancelled_aborted _ Hwf) in Hold.
      apply (in_flight_with_elem _ _ _ Hwf) in Hnew
        as (call & rq & _ & _ & Hr & _ & Hsig).
      unfold request_aborted in Hold. rewrite Hr, Hsig in Hold. cbn in Hold.
      by rewrite Hc in Hold.
    + by apply in_flight_with_NoDup.
  - intros r. cbn [cancelled set_cancelled].
    intros [Hold|Hnew]%elem_of_app.
    + apply (request_aborted_extends w); [done|].
      by apply (wf_cancelled_aborted _ Hwf).
    + apply (in_flight_with_elem _ _ _ Hwf) in Hnew
        as (call & rq & _ & _ & Hr & _ & Hsig).
      unfold request_aborted. cbn. rewrite Hr, Hsig. cbn.
      rewrite list_lookup_insert_eq; [done|]. by eapply lookup_lt_Some.
Qed.

Lemma wf_issue w c a ld opts preset url f p :
  wf w ->
  calls w !! c = Some {| self := a; state := OnFile p (upload_on_file c preset) |} ->
  bound w a = Some (ld, opts) ->
  get_prop opts "CLOUDINARY_UPLOAD_PRESET" = Normal preset ->
  get_prop opts "CLOUDINARY_UPLOAD_URL" = Normal url ->
  file ld = Normal f ->
  requests_of w c = [] ->
  wf (set_state c (OnFetch (length (requests w)) upload_on_response)
        (set_requests (fun l => l ++ [upload_request c c url preset f]) w)).
Proof.
  intros Hwf Hcall Hb Hp Hu Hf Hnone.
  set (rq := upload_request c c url preset f).
  set (w1 := set_requests (fun l => l ++ [rq]) w).
  set (st := OnFetch (length (requests w)) upload_on_response).
  assert (Hext : extends w (set_state c st w1)).
  { eapply extends_trans;
      [apply extends_set_requests_snoc | apply extends_set_state]. }
  split.
  - cbn. rewrite length_alter. apply Hwf.
  - intros a' this c' Ha Hc'. apply (ext_owner _ _ Hext).
    by apply (wf_adapter _ Hwf a' this).
  - intros c' a'. rewrite owner_set_state. apply (wf_owner _ Hwf).
  - intros c' call' Hc'. cbn in Hc'.
    destruct (decide (c = c')) as [<-|Hne].
    + rewrite list_lookup_alter_eq, Hcall in Hc'. injection Hc' as <-.
      apply (ok_fetch _ _ a _ rq).
      * cbn. apply lookup_snoc_length.
      * change (requests_of w1 c = [rq]). unfold w1.
        rewrite requests_of_snoc, Hnone. cbn. by rewrite decide_True.
    + rewrite list_lookup_alter_ne in Hc' by done.
      apply (call_ok_mono w); [apply Hext | | | by apply (wf_call _ Hwf)].
      * intros r rq' Hr. cbn. by apply lookup_app_l_Some.
      * change (requests_of w1 c' = requests_of w c'). unfold w1.
        rewrite requests_of_snoc. cbn. rewrite decide_False by done.
        apply app_nil_r.
  - intros r rq' Hr. cbn in Hr.
    apply lookup_app_Some in Hr as [Hr|[_ Hr]].
    + apply (request_ok_extends w); [done|]. by apply (wf_request _ Hwf r).
    + apply list_lookup_singleton_Some in Hr as [_ <-].
      exists a, ld, opts, preset, f. repeat split; try done.
      apply (ext_owner _ _ Hext). unfold owner. cbn. by rewrite Hcall.
  - apply Hwf.
  - intros r Hr. apply (request_aborted_extends w); [done|].
    by apply (wf_cancelled_aborted _ Hwf).
Qed.

End PreservationEvents.

Section Reachable.

Implicit Types (w : World) (a : AdapterRef) (c r : nat) (rq : Request).

Lemma bound_lookup w a ld opts :
  bound w a = Some (ld, opts) ->
  exists this, adapters w !! a = Some this
               /\ loader this = ld /\ options this = opts.
Proof.
  unfold bound. destruct (adapters w !! a) as [this|]; [|done].
  intros [= <- <-]. by exists this.
Qed.

Lemma call_ok_rejected w c a e rqs :
  requests_of w c = rqs -> length rqs <= 1 ->
  call_ok w c {| self := a; state := Settled (Throw e) |}.
Proof. intros <- Hlen. by apply ok_rejected. Qed.

(** Every event keeps the invariant. *)
Lemma step_wf ev w w' : wf w -> step ev w = Some w' -> wf w'.
Proof.
  intros Hwf Hstep. destruct ev as [ld opts|a|a|c|c reply|c].
  - injection Hstep as <-. by apply wf_new_Adapter.
  - destruct (adapters w !! a) as [this|] eqn:Hthis.
    + rewrite (step_CallUpload _ _ _ Hthis) in Hstep. injection Hstep as <-.
      by apply wf_started.
    + apply lookup_ge_None in Hthis. unfold step in Hstep.
      rewrite decide_False in Hstep by lia. discriminate.
  - unfold step, abort in Hstep.
    destruct (adapters w !! a) as [this|]; [|done]. cbn in Hstep.
    destruct (abortController this) as [c|]; injection Hstep as <-;
      [by apply wf_AbortController_abort | done].
  - destruct (calls w !! c) as [[a st]|] eqn:Hcall;
      [|by (unfold step in Hstep; rewrite Hcall in Hstep)].
    pose proof (wf_call _ Hwf _ _ Hcall) as Hok.
    inversion Hok as [? ld opts preset Hb Hp Hnone| | | |]; subst;
      try by (unfold step in Hstep; rewrite Hcall in Hstep).
    destruct (bound_lookup _ _ _ _ Hb) as (this & Hthis & <- & <-).
    rewrite (step_FileSettles _ _ _ _ _ _ _ Hcall Hthis) in Hstep.
    injection Hstep as <-. unfold file_settled.
    destruct (file (loader this)) as [f|e] eqn:Hf;
      [|apply (wf_set_state _ _ _ _ Hwf Hcall);
        apply (call_ok_rejected _ _ _ _ _ Hnone); cbn; lia].
    destruct (get_prop (options this) "CLOUDINARY_UPLOAD_URL") as [url|e] eqn:Hu;
      [|apply (wf_set_state _ _ _ _ Hwf Hcall);
        apply (call_ok_rejected _ _ _ _ _ Hnone); cbn; lia].
    destruct (signal_aborted w (Some c));
      [apply (wf_set_state _ _ _ _ Hwf Hcall);
       apply (call_ok_rejected _ _ _ _ _ Hnone); cbn; lia|].
    rewrite <- Hf in Hcall. by eapply wf_issue.
  - destruct (calls w !! c) as [[a st]|] eqn:Hcall;
      [|by (unfold step in Hstep; rewrite Hcall in Hstep)].
    pose proof (wf_call _ Hwf _ _ Hcall) as Hok.
    inversion Hok as [|? r rq Hr Hone| | |]; subst;
      try by (unfold step in Hstep; rewrite Hcall in Hstep).
    rewrite (step_FetchSettles _ _ _ _ _ Hcall) in Hstep.
    injection Hstep as <-. apply (wf_set_state _ _ _ _ Hwf Hcall).
    unfold fetch_outcome.
    destruct (request_aborted w r);
      [apply (call_ok_rejected _ _ _ _ _ Hone); cbn; lia|].
    destruct reply as [rp|e];
      [|apply (call_ok_rejected _ _ _ _ _ Hone); cbn; lia].
    by apply (ok_json _ _ _ _ rq).
  - destruct (calls w !! c) as [[a st]|] eqn:Hcall;
      [|by (unfold step in Hstep; rewrite Hcall in Hstep)].
    pose proof (wf_call _ Hwf _ _ Hcall) as Hok.
    inversion Hok as [| |? res rq Hr Hone| |]; subst;
      try by (unfold step in Hstep; rewrite Hcall in Hstep).
    rewrite (step_JsonSettles _ _ _ _ Hcall) in Hstep.
    injection Hstep as <-. apply (wf_set_state _ _ _ _ Hwf Hcall).
    unfold json_settled_state.
    destruct (json_outcome w res) as [parsed|e];
      [|apply (call_ok_rejected _ _ _ _ _ Hone); cbn; lia].
    destruct (get_prop parsed "secure_url");
      [|apply (call_ok_rejected _ _ _ _ _ Hone); cbn; lia].
    by apply (ok_resolved _ _ _ _ rq).
Qed.

Lemma exec_wf evs w w' : wf w -> exec evs w = Some w' -> wf w'.
Proof.
  revert w. induction evs as [|ev evs IH]; intros w Hwf; cbn.
  - by intros [= <-].
  - destruct (step ev w) as [w1|] eqn:Hstep; [|done]. cbn.
    apply IH. by eapply step_wf.
Qed.

Lemma reachable_wf w : reachable w -> wf w.
Proof. intros [evs Hevs]. eapply exec_wf; [apply wf_empty | done]. Qed.

End Reachable.

(** ** The request *)

Lemma reachable_request_ok (w : World) (rq : Request) :
  reachable w -> rq ∈ requests w -> request_ok w rq.
Proof.
  intros Hw [r Hr]%list_elem_of_lookup.
  by apply (wf_request _ (reachable_wf _ Hw) r).
Qed.

(** C10: whatever the options an adapter was constructed with (a [headers]
    property among them or not), every request [upload] has issued in a
    reachable world has no [headers] member: it is a POST whose body is
    exactly the [upload_preset] field, holding the options' preset, and the
    [file] field, holding the loader's file, with the issuing call's signal
    attached. *)
Theorem request_has_no_headers (w : World) (rq : Request) :
  reachable w ->
  rq ∈ requests w ->
  exists a ld opts preset f,
    owner w (by_call rq) = Some a
    /\ bound w a = Some (ld, opts)
    /\ get_prop opts "CLOUDINARY_UPLOAD_PRESET" = Normal preset
    /\ file ld = Normal f
    /\ init_of rq
       = {| method := Some "POST";
            headers := None;
            body := Some [("upload_preset", preset); ("file", f)];
            signal := Some (by_call rq) |}.
Proof.
  intros Hw Hrq.
  destruct (reachable_request_ok w rq Hw Hrq)
    as (a & ld & opts & preset & f & Ho & Hb & Hp & Hf & _ & Hinit).
  by exists a, ld, opts, preset, f.
Qed.

Lemma call_ok_requests (w : World) (c : nat) (call : Call) :
  call_ok w c call ->
  length (requests_of w c) <= 1
  /\ (past_fetch (state call) = true -> length (requests_of w c) = 1)
  /\ (on_file (state call) = true -> requests_of w c = []).
Proof.
  intros Hok. destruct Hok as [? ? ? ? _ _ H|? ? ? _ H|? ? ? _ H|? ? ? H|? ? H];
    cbn; rewrite ?H; cbn; repeat split; try done; lia.
Qed.

(** C8, as the code has it: in a reachable world a call of [upload()] has
    issued at most one request, and exactly one once it awaits a response or
    has resolved; each such request is a POST to the options'
    [CLOUDINARY_UPLOAD_URL] whose body holds the options' preset and the file
    of the bound loader, with the call's own signal attached. A call whose
    loader's file promise rejects has issued none; a call that still awaits
    a file issues its one request when the file arrives, if its options are
    an object and its signal is not aborted. *)
Theorem upload_issues_at_most_one_request
    (w : World) (c : nat) (call : Call) (this : Adapter) :
  reachable w ->
  calls w !! c = Some call ->
  adapters w !! self call = Some this ->
  length (requests_of w c) <= 1
  /\ (past_fetch (state call) = true -> length (requests_of w c) = 1)
  /\ (forall rq, rq ∈ requests_of w c ->
        exists preset f,
          get_prop (options this) "CLOUDINARY_UPLOAD_PRESET" = Normal preset
          /\ file (loader this) = Normal f
          /\ get_prop (options this) "CLOUDINARY_UPLOAD_URL" = Normal (input rq)
          /\ init_of rq = upload_init c preset f)
  /\ (forall e, file (loader this) = Throw e -> requests_of w c = [])
  /\ (forall f,
        on_file (state call) = true ->
        file (loader this) = Normal f ->
        truthy (options this) = true ->
        controllers w !! c = Some false ->
        exists w', step (FileSettles c) w = Some w'
                   /\ length (requests_of w' c) = 1).
Proof.
  intros Hw Hcall Hthis. pose proof (reachable_wf _ Hw) as Hwf.
  pose proof (wf_call _ Hwf _ _ Hcall) as Hok.
  destruct (call_ok_requests _ _ _ Hok) as (Hmost & Hone & Hnone).
  assert (Hshape : forall rq, rq ∈ requests_of w c ->
            exists preset f,
              get_prop (options this) "CLOUDINARY_UPLOAD_PRESET" = Normal preset
              /\ file (loader this) = Normal f
              /\ get_prop (options this) "CLOUDINARY_UPLOAD_URL" = Normal (input rq)
              /\ init_of rq = upload_init c preset f).
  { intros rq Hrq. pose proof (requests_of_by_call _ _ _ Hrq) as Hby.
    apply list_elem_of_filter in Hrq as [_ [r Hr]%list_elem_of_lookup].
    destruct (wf_request _ Hwf _ _ Hr)
      as (a & ld & opts & preset & f & Ho & Hb & Hp & Hf & Hu & Hinit).
    rewrite Hby in Ho, Hinit. unfold owner in Ho. rewrite Hcall in Ho.
    injection Ho as <-. unfold bound in Hb. rewrite Hthis in Hb.
    injection Hb as <- <-. by exists preset, f. }
  repeat split; try done.
  - intros e He. destruct (requests_of w c) as [|rq rqs] eqn:Hof; [done|].
    destruct (Hshape rq) as (? & f & _ & Hf & _); [by left | congruence].
  - intros f Hon Hf Hopts Hlive.
    destruct call as [a st]. cbn in Hthis, Hon.
    inversion Hok as [? ld opts preset Hb Hp Hnone'| | | |]; subst;
      try discriminate.
    unfold bound in Hb. rewrite Hthis in Hb. injection Hb as <- <-.
    destruct (get_prop_truthy _ "CLOUDINARY_UPLOAD_URL" Hopts) as [url Hu].
    eexists. split; [by apply (step_FileSettles _ _ _ this _ _ _ Hcall)|].
    unfold file_settled. rewrite Hf, Hu.
    unfold signal_aborted. rewrite Hlive. cbn [default from_option id].
    change (requests_of (set_state ?c0 ?st ?w0) ?c1) with (requests_of w0 c1).
    rewrite requests_of_snoc, Hnone'. cbn. by rewrite decide_True.
Qed.

(** ** Independence *)

Section Frame.

Implicit Types (w : World) (a b : AdapterRef) (c r : nat) (rq : Request).

(** Resuming a call changes that call, and may add one request of
    that call; nothing else. *)
Lemma settle_shape w w' ev c0 :
  wf w -> step ev w = Some w' -> settles ev = Some c0 ->
  adapters w' = adapters w
  /\ controllers w' = controllers w
  /\ cancelled w' = cancelled w
  /\ (exists st, calls w' = alter (fun call => {| self := self call; state := st |})
                              c0 (calls w))
  /\ exists more, requests w' = requests w ++ more
                  /\ forall rq, rq ∈ more -> by_call rq = c0.
Proof.
  intros Hwf Hstep Hev.
  assert (Hstate : forall st, 
            adapters (set_state c0 st w) = adapters w
            /\ controllers (set_state c0 st w) = controllers w
            /\ cancelled (set_state c0 st w) = cancelled w
            /\ (exists st', calls (set_state c0 st w)
                   = alter (fun call => {| self := self call; state := st' |})
                       c0 (calls w))
            /\ exists more, requests (set_state c0 st w) = requests w ++ more
                  /\ forall rq, rq ∈ more -> by_call rq = c0).
  { intros st. repeat split; [by exists st|]. exists []. 
    split; [by rewrite app_nil_r | by intros rq ?%elem_of_nil]. }
  destruct ev as [ld opts|a|a|c|c reply|c]; try discriminate;
    injection Hev as ->;
    (destruct (calls w !! c0) as [[a st]|] eqn:Hcall;
      [|by (unfold step in Hstep; rewrite Hcall in Hstep)]);
    pose proof (wf_call _ Hwf _ _ Hcall) as Hok.
  - inversion Hok as [? ld opts preset Hb Hp Hnone| | | |]; subst;
      try by (unfold step in Hstep; rewrite Hcall in Hstep).
    destruct (bound_lookup _ _ _ _ Hb) as (this & Hthis & <- & <-).
    rewrite (step_FileSettles _ _ _ _ _ _ _ Hcall Hthis) in Hstep.
    injection Hstep as <-. unfold file_settled.
    destruct (file (loader this)) as [f|e]; [|apply Hstate].
    destruct (get_prop (options this) "CLOUDINARY_UPLOAD_URL") as [url|e];
      [|apply Hstate].
    destruct (signal_aborted w (Some c0)); [apply Hstate|].
    repeat split; [by eexists|]. eexists. split; [reflexivity|].
    by intros rq ->%list_elem_of_singleton.
  - inversion Hok; subst;
      try by (unfold step in Hstep; rewrite Hcall in Hstep).
    rewrite (step_FetchSettles _ _ _ _ _ Hcall) in Hstep.
    injection Hstep as <-. apply Hstate.
  - inversion Hok; subst;
      try by (unfold step in Hstep; rewrite Hcall in Hstep).
    rewrite (step_JsonSettles _ _ _ _ Hcall) in Hstep.
    injection Hstep as <-. apply Hstate.
Qed.

Lemma cancelled_lt w r :
  wf w -> r ∈ cancelled w -> r < length (requests w).
Proof.
  intros Hwf Hr. apply (wf_cancelled_aborted _ Hwf) in Hr.
  unfold request_aborted in Hr. apply lookup_lt_is_Some.
  destruct (requests w !! r); [eauto | done].
Qed.

(** An event leaves alone every adapter it does not act on: the object,
    its calls and where they stand, the flags of their controllers, their
    requests and the cancellations delivered for them. *)
Lemma step_frame w ev w' b :
  wf w -> step ev w = Some w' -> target w ev <> Some b ->
  (forall this, adapters w !! b = Some this -> adapters w' !! b = Some this)
  /\ forall c, owner w c = Some b ->
       calls w' !! c = calls w !! c
       /\ controllers w' !! c = controllers w !! c
       /\ requests_of w' c = requests_of w c
       /\ cancelled_of w' c = cancelled_of w c.
Proof.
  intros Hwf Hstep Htarget. destruct (settles ev) as [c0|] eqn:Hev.
  - destruct (settle_shape _ _ _ _ Hwf Hstep Hev)
      as (Had & Hctl & Hcan & [st Hcalls] & more & Hreq & Hmore).
    assert (Hc0 : target w ev = owner w c0).
    { destruct ev; try discriminate; by injection Hev as ->. }
    rewrite Hc0 in Htarget. split; [by rewrite Had|].
    intros c Hc. assert (c0 <> c) by (intros ->; done).
    repeat split.
    + rewrite Hcalls. by apply list_lookup_alter_ne.
    + by rewrite Hctl.
    + unfold requests_of. rewrite Hreq, filter_app.
      rewrite (filter_none _ more), app_nil_r; [done|].
      intros rq Hrq. rewrite (Hmore _ Hrq). done.
    + unfold cancelled_of. rewrite Hcan. apply filter_ext_elem.
      intros r Hr. rewrite Hreq.
      by rewrite lookup_app_l by (by apply cancelled_lt).
  - destruct ev as [ld opts|a|a|c0|c0 reply|c0]; try discriminate.
    + injection Hstep as <-. split; [|done].
      intros this Hb. cbn. by apply lookup_app_l_Some.
    + cbn in Htarget.
      destruct (adapters w !! a) as [this|] eqn:Hthis.
      2:{ apply lookup_ge_None in Hthis. unfold step in Hstep.
          rewrite decide_False in Hstep by lia. discriminate. }
      rewrite (step_CallUpload _ _ _ Hthis) in Hstep. injection Hstep as <-.
      split.
      * intros this' Hb. unfold started. cbn.
        rewrite list_lookup_alter_ne; [done | congruence].
      * intros c Hc. apply owner_lt in Hc.
        unfold started. cbn. repeat split.
        -- by apply lookup_app_l.
        -- apply lookup_app_l. rewrite (wf_controllers _ Hwf). done.
    + cbn in Htarget. unfold step, abort in Hstep.
      destruct (adapters w !! a) as [this|] eqn:Hthis; [|done].
      cbn in Hstep.
      destruct (abortController this) as [ca|] eqn:Hca;
        injection Hstep as <-; [|done].
      pose proof (wf_adapter _ Hwf _ _ _ Hthis Hca) as Hown.
      unfold AbortController_abort.
      destruct (controllers w !! ca) as [[]|]; try done.
      split; [done|]. intros c Hc.
      assert (ca <> c) by (intros ->; congruence).
      repeat split.
      * cbn. by apply list_lookup_insert_ne.
      * unfold cancelled_of. cbn [cancelled set_cancelled].
        rewrite filter_app.
        rewrite (filter_none _ (in_flight_with ca w)), app_nil_r; [done|].
        intros r Hr.
        apply (in_flight_with_elem _ _ _ Hwf) in Hr
          as (call & rq & _ & _ & Hrq & Hby & _).
        cbn. rewrite Hrq. cbn. congruence.
Qed.

End Frame.

(** ** Cancellation *)

Section Cancellation.

Implicit Types (w : World) (a b : AdapterRef) (c r : nat) (rq : Request).

Lemma run_calls a me prog w : calls (snd (run a me prog w)) = calls w.
Proof.
  revert w. induction prog as [v|e|k IH|k IH|c k IH|p k _|url init k _|res k _];
    intros w; cbn [run]; try done.
  - destruct (adapters w !! a); [apply IH | done].
  - by rewrite IH.
  - by rewrite IH.
  - by destruct (signal_aborted w (signal init)).
Qed.

Lemma resume_calls a c prog w c' :
  c <> c' -> calls (resume a c prog w) !! c' = calls w !! c'.
Proof.
  intros Hne. unfold resume. pose proof (run_calls a c prog w) as Hrun.
  destruct (run a c prog w) as [st w1]. cbn in *.
  rewrite list_lookup_alter_ne by done. by rewrite Hrun.
Qed.

(** Only the event that resumes a call changes it. *)
Lemma step_calls_keep ev w w' c call :
  settles ev <> Some c -> step ev w = Some w' ->
  calls w !! c = Some call -> calls w' !! c = Some call.
Proof.
  intros Hev Hstep Hcall.
  destruct ev as [ld opts|a|a|c0|c0 reply|c0]; cbn in Hev.
  - by injection Hstep as <-.
  - unfold step in Hstep.
    destruct (decide (a < length (adapters w))); [|done].
    pose proof (run_calls a (length (calls w)) upload w) as Hrun.
    destruct (run a (length (calls w)) upload w) as [st w1].
    injection Hstep as <-. cbn in *. rewrite Hrun.
    by apply lookup_app_l_Some.
  - unfold step, abort in Hstep.
    destruct (adapters w !! a) as [this|]; [|done]. cbn in Hstep.
    destruct (abortController this) as [ca|]; injection Hstep as <-; [|done].
    unfold AbortController_abort.
    by destruct (controllers w !! ca) as [[]|].
  - unfold step in Hstep.
    destruct (calls w !! c0) as [[a []]|]; try done.
    injection Hstep as <-. rewrite resume_calls; [done | congruence].
  - unfold step in Hstep.
    destruct (calls w !! c0) as [[a []]|]; try done.
    injection Hstep as <-. rewrite resume_calls; [done | congruence].
  - unfold step in Hstep.
    destruct (calls w !! c0) as [[a []]|]; try done.
    injection Hstep as <-. rewrite resume_calls; [done | congruence].
Qed.

Lemma pending_request_aborted w c call r :
  wf w -> calls w !! c = Some call ->
  pending_request (state call) = Some r ->
  request_aborted w r = default false (controllers w !! c).
Proof.
  intros Hwf Hcall Hpend.
  destruct (pending_request_signal _ _ _ _ Hwf Hcall Hpend)
    as (rq & Hr & _ & Hsig & _).
  unfold request_aborted. by rewrite Hr, Hsig.
Qed.

(** Resuming a call whose signal is aborted rejects it with
    [AbortError], whatever the network delivers. *)
Lemma settle_aborted w w' ev c call r :
  wf w -> calls w !! c = Some call ->
  pending_request (state call) = Some r ->
  controllers w !! c = Some true ->
  settles ev = Some c -> step ev w = Some w' ->
  w' = set_state c (Settled (Throw AbortError)) w.
Proof.
  intros Hwf Hcall Hpend Hflag Hev Hstep.
  pose proof (pending_request_aborted _ _ _ _ Hwf Hcall Hpend) as Hab.
  rewrite Hflag in Hab. cbn in Hab.
  pose proof (wf_call _ Hwf _ _ Hcall) as Hok.
  destruct ev as [ld opts|a|a|c0|c0 reply|c0]; try discriminate;
    injection Hev as ->; destruct call as [a st];
    inversion Hok; subst; cbn in Hpend; try discriminate;
    try by (unfold step in Hstep; rewrite Hcall in Hstep).
  - injection Hpend as ->.
    rewrite (step_FetchSettles _ _ _ _ _ Hcall) in Hstep.
    injection Hstep as <-. unfold fetch_outcome. by rewrite Hab.
  - rewrite (step_JsonSettles _ _ _ _ Hcall) in Hstep.
    injection Hstep as <-. unfold json_outcome.
    injection Hpend as Hpend. by rewrite Hpend, Hab.
Qed.

Lemma network_event_enabled w c call r reply :
  wf w -> calls w !! c = Some call ->
  pending_request (state call) = Some r ->
  settles (network_event (state call) c reply) = Some c
  /\ is_Some (step (network_event (state call) c reply) w).
Proof.
  intros Hwf Hcall Hpend. pose proof (wf_call _ Hwf _ _ Hcall) as Hok.
  destruct call as [a st].
  inversion Hok; subst; cbn in Hpend; try discriminate;
    cbn [network_event settles state]; split; try done.
  - by rewrite (step_FetchSettles _ _ _ _ _ Hcall).
  - by rewrite (step_JsonSettles _ _ _ _ Hcall).
Qed.

Lemma step_aborted_in_flight ev w w' c :
  wf w -> aborted_in_flight w c -> step ev w = Some w' ->
  aborted_in_flight w' c.
Proof.
  intros Hwf [Hflag (call & Hcall & Hst)] Hstep.
  split; [by apply (ext_aborted _ _ (step_extends _ _ _ Hstep))|].
  destruct (decide (settles ev = Some c)) as [Hev|Hev].
  - destruct Hst as [[r Hpend]|Hst].
    + rewrite (settle_aborted _ _ _ _ _ _ Hwf Hcall Hpend Hflag Hev Hstep).
      eexists. split; [by apply set_state_lookup|]. by right.
    + exfalso. destruct call as [a st]. cbn in Hst. subst st.
      destruct ev; try discriminate; injection Hev as ->;
        unfold step in Hstep; by rewrite Hcall in Hstep.
  - exists call. split; [by eapply step_calls_keep | done].
Qed.

Lemma exec_aborted_in_flight evs w w' c :
  wf w -> aborted_in_flight w c -> exec evs w = Some w' ->
  aborted_in_flight w' c.
Proof.
  revert w. induction evs as [|ev evs IH]; intros w Hwf Hc; cbn.
  - by intros [= <-].
  - destruct (step ev w) as [w1|] eqn:Hstep; [|done]. cbn.
    apply IH; [by eapply step_wf | by eapply step_aborted_in_flight].
Qed.

Lemma NoDup_cancellations w r :
  NoDup (cancelled w) -> r ∈ cancelled w -> cancellations w r = 1.
Proof.
  unfold cancellations. induction (cancelled w) as [|x l IH]; intros Hnd Hr.
  - by apply elem_of_nil in Hr.
  - apply NoDup_cons in Hnd as [Hx Hnd].
    apply elem_of_cons in Hr as [->|Hr].
    + rewrite filter_cons_True by done. cbn. f_equal.
      rewrite (filter_none _ l); [done|]. intros y Hy ->. done.
    + rewrite filter_cons_False by (intros ->; done). by apply IH.
Qed.

End Cancellation.

(** ** How [upload] settles *)

(** C1: in any world, a call of [upload()] on an adapter with options (any
    truthy value, as [init] requires) and a loader that delivers its file,
    answered by a response of any status whose body parses to an object with
    [secure_url] the string [u] and not aborted meanwhile, runs to its end
    and resolves with the object [{ default: u }]. *)
Theorem upload_resolves_with_secure_url
    (w : World) (a : AdapterRef) (this : Adapter) (f : JSValue)
    (reply : Reply) (parsed : gmap string JSValue) (u : string) :
  adapters w !! a = Some this ->
  truthy (options this) = true ->
  file (loader this) = Normal f ->
  reply_json reply = Normal (JObj parsed) ->
  parsed !! "secure_url" = Some (JStr u) ->
  let c := length (calls w) in
  exists w',
    exec [CallUpload a; FileSettles c; FetchSettles c (Normal reply);
          JsonSettles c] w = Some w'
    /\ result_of w' c = Some (Normal (JObj {[ "default" := JStr u ]})).
Proof.
  intros Hthis Hopts Hfile Hjson Hurl c.
  destruct (upload_completes w a this f reply Hthis Hopts Hfile)
    as (w' & Hexec & Hres).
  exists w'. split; [done|]. fold c in Hres. rewrite Hres, Hjson.
  unfold json_result. cbn. by rewrite Hurl.
Qed.


(** ** The controller an adapter holds *)

Section Latest.

Implicit Types (w : World) (a : AdapterRef) (c : nat).

Lemma last_index_from_snoc i (l : list nat) x a :
  last_index_from i (l ++ [x]) a
  = if decide (x = a) then Some (i + length l) else last_index_from i l a.
Proof.
  revert i. induction l as [|y l IH]; intros i; cbn.
  - rewrite Nat.add_0_r. by destruct (decide (x = a)).
  - rewrite IH. destruct (decide (x = a)); [|done]. f_equal. lia.
Qed.

Lemma last_index_from_None i (l : list nat) a n :
  last_index_from i l a = None -> l !! n <> Some a.
Proof.
  revert i n. induction l as [|y l IH]; intros i n; [done|]. cbn.
  destruct (last_index_from (S i) l a) eqn:Hrest; [done|].
  destruct (decide (y = a)); [done|]. intros _.
  destruct n as [|n]; cbn; [congruence | by eapply IH].
Qed.

Lemma last_index_from_Some i (l : list nat) a j :
  last_index_from i l a = Some j ->
  i <= j /\ l !! (j - i) = Some a
  /\ forall j', j < j' -> l !! (j' - i) <> Some a.
Proof.
  revert i. induction l as [|y l IH]; intros i; cbn; [done|].
  destruct (last_index_from (S i) l a) as [j0|] eqn:Hrest.
  - intros [= ->]. destruct (IH _ Hrest) as (Hle & Hj & Hlater).
    split; [lia|]. split.
    + replace (j - i) with (S (j - S i)) by lia. done.
    + intros j' Hj'. replace (j' - i) with (S (j' - S i)) by lia.
      apply Hlater. lia.
  - destruct (decide (y = a)) as [->|]; [|done]. intros [= ->].
    split; [lia|]. rewrite Nat.sub_diag. split; [done|].
    intros j' Hj'. replace (j' - j) with (S (j' - S j)) by lia. cbn.
    by eapply last_index_from_None.
Qed.

(** [latest_call] is what its name says. *)
Lemma latest_call_Some w a c :
  latest_call w a = Some c ->
  owner w c = Some a /\ forall c', c < c' -> owner w c' <> Some a.
Proof.
  unfold latest_call, owner. intros Hlast.
  destruct (last_index_from_Some _ _ _ _ Hlast) as (_ & Hc & Hlater).
  rewrite Nat.sub_0_r, list_lookup_fmap in Hc. split; [done|].
  intros c' Hc' Ho. apply (Hlater c' Hc').
  by rewrite Nat.sub_0_r, list_lookup_fmap.
Qed.

Lemma fmap_self_alter (l : list Call) c st :
  self <$> alter (fun call => {| self := self call; state := st |}) c l
  = self <$> l.
Proof.
  apply list_eq. intros i. rewrite !list_lookup_fmap.
  destruct (decide (c = i)) as [->|Hne].
  - rewrite list_lookup_alter_eq. by destruct (l !! i).
  - by rewrite list_lookup_alter_ne.
Qed.

Lemma holds_latest_empty : holds_latest empty_world.
Proof. intros a this Hthis. done. Qed.

(** Every event keeps each adapter holding the controller of its latest
    call: [upload()] stores the controller it has just created. *)
Lemma step_holds_latest ev w w' :
  wf w -> holds_latest w -> step ev w = Some w' -> holds_latest w'.
Proof.
  intros Hwf Hinv Hstep a' this' Hthis'.
  destruct (settles ev) as [c0|] eqn:Hev.
  - destruct (settle_shape _ _ _ _ Hwf Hstep Hev)
      as (Had & _ & _ & [st Hcalls] & _).
    unfold latest_call. rewrite Hcalls, fmap_self_alter.
    apply Hinv. by rewrite <- Had.
  - destruct ev as [ld opts|a|a|c0|c0 reply|c0]; try discriminate.
    + injection Hstep as <-. cbn in Hthis'.
      apply lookup_app_Some in Hthis' as [Hold|[Hge Hnew]].
      * by apply Hinv.
      * apply list_lookup_singleton_Some in Hnew as [Hidx <-]. cbn.
        change (latest_call (set_adapters _ w) a') with (latest_call w a').
        destruct (latest_call w a') as [c|] eqn:Hlast; [|done].
        apply latest_call_Some in Hlast as [Ho _].
        pose proof (wf_owner _ Hwf _ _ Ho). lia.
    + destruct (adapters w !! a) as [this|] eqn:Hthis.
      2:{ apply lookup_ge_None in Hthis. unfold step in Hstep.
          rewrite decide_False in Hstep by lia. discriminate. }
      rewrite (step_CallUpload _ _ _ Hthis) in Hstep. injection Hstep as <-.
      unfold latest_call, started in Hthis' |- *. cbn in Hthis' |- *.
      rewrite fmap_app. cbn. rewrite last_index_from_snoc, length_fmap.
      destruct (decide (a = a')) as [<-|Hne].
      * rewrite list_lookup_alter_eq, Hthis in Hthis'. injection Hthis' as <-.
        cbn. by rewrite (wf_controllers _ Hwf).
      * rewrite list_lookup_alter_ne in Hthis' by done. by apply Hinv.
    + unfold step, abort in Hstep.
      destruct (adapters w !! a) as [this|]; [|done]. cbn in Hstep.
      destruct (abortController this) as [c|]; injection Hstep as <-;
        [|by apply Hinv].
      unfold AbortController_abort in Hthis' |- *.
      destruct (controllers w !! c) as [[]|]; by apply Hinv.
Qed.

Lemma exec_holds_latest evs w w' :
  wf w -> holds_latest w -> exec evs w = Some w' -> holds_latest w'.
Proof.
  revert w. induction evs as [|ev evs IH]; intros w Hwf Hinv; cbn.
  - by intros [= <-].
  - destruct (step ev w) as [w1|] eqn:Hstep; [|done]. cbn.
    apply IH; [by eapply step_wf | by eapply step_holds_latest].
Qed.

Lemma reachable_holds_latest w : reachable w -> holds_latest w.
Proof.
  intros [evs Hevs].
  by apply (exec_holds_latest evs empty_world w wf_empty holds_latest_empty).
Qed.

(** In a reachable world the adapter whose latest call is [c] exists and
    holds controller [c]. *)
Lemma latest_call_controller w a c :
  reachable w -> latest_call w a = Some c ->
  exists this, adapters w !! a = Some this /\ abortController this = Some c.
Proof.
  intros Hw Hlast. pose proof (reachable_wf _ Hw) as Hwf.
  destruct (latest_call_Some _ _ _ Hlast) as [Ho _].
  pose proof (wf_owner _ Hwf _ _ Ho) as Hlt.
  destruct (lookup_lt_is_Some_2 _ _ Hlt) as [this Hthis].
  exists this. split; [done|].
  by rewrite (reachable_holds_latest _ Hw _ _ Hthis).
Qed.

End Latest.

(** ** [abort] *)

(** C3, as the code has it: when the latest call of [upload()] on an adapter
    has settled, [abort()] returns normally; it delivers no cancellation,
    and leaves the adapters, the calls with their settlements and the
    requests as they were. All it does is set the [aborted] flag of that
    finished call's signal: the adapter holds the controller of its latest
    call. *)
Theorem abort_after_settled
    (w : World) (a : AdapterRef) (c : nat) (call : Call)
    (o : Completion JSValue) :
  reachable w ->
  latest_call w a = Some c ->
  calls w !! c = Some call ->
  state call = Settled o ->
  exists w',
    abort a w = Some (Normal tt, w')
    /\ adapters w' = adapters w
    /\ calls w' = calls w
    /\ requests w' = requests w
    /\ cancelled w' = cancelled w
    /\ controllers w' = <[c := true]> (controllers w).
Proof.
  intros Hw Hlast Hcall Hst. pose proof (reachable_wf _ Hw) as Hwf.
  destruct (latest_call_controller _ _ _ Hw Hlast) as (this & Hthis & Hc).
  exists (AbortController_abort c w). split.
  { unfold abort. rewrite Hthis. cbn. by rewrite Hc. }
  unfold AbortController_abort.
  destruct (controllers w !! c) as [[]|] eqn:Hflag.
  - repeat split. by rewrite list_insert_id.
  - repeat split. cbn.
    rewrite (in_flight_with_wf _ _ Hwf), Hcall, Hst. apply app_nil_r.
  - repeat split. apply lookup_ge_None in Hflag. by rewrite list_insert_ge.
Qed.

(** C7, as the code has it: when [abort()] is called on an adapter whose
    latest call of [upload()] has its request in flight (it awaits the
    response or the body) and was not aborted before, [abort()] returns
    normally (the adapter holds that call's controller) and the transport
    receives one cancellation, for that request;
    the call can be resumed and then rejects with [AbortError] whatever the
    network delivers; and in every later world that request has still been
    cancelled exactly once and the call is pending or has rejected with
    [AbortError]. *)
Theorem abort_in_flight
    (w : World) (a : AdapterRef) (c : nat) (call : Call) (r : nat) :
  reachable w ->
  latest_call w a = Some c ->
  calls w !! c = Some call ->
  pending_request (state call) = Some r ->
  controllers w !! c = Some false ->
  exists w1,
    abort a w = Some (Normal tt, w1)
    /\ cancellations w r = 0
    /\ cancelled w1 = cancelled w ++ [r]
    /\ (forall reply, exists w2,
          step (network_event (state call) c reply) w1 = Some w2
          /\ result_of w2 c = Some (Throw AbortError))
    /\ forall evs w2,
         exec evs w1 = Some w2 ->
         cancellations w2 r = 1
         /\ (result_of w2 c = None \/ result_of w2 c = Some (Throw AbortError)).
Proof.
  intros Hw Hlast Hcall Hpend Hflag. pose proof (reachable_wf _ Hw) as Hwf.
  destruct (latest_call_controller _ _ _ Hw Hlast) as (this & Hthis & Hc).
  set (w1 := AbortController_abort c w).
  assert (Hw1 : wf w1) by (by apply wf_AbortController_abort).
  assert (Hcan : cancelled w1 = cancelled w ++ [r]).
  { unfold w1, AbortController_abort. rewrite Hflag. cbn.
    by rewrite (in_flight_with_wf _ _ Hwf), Hcall, Hpend. }
  assert (Hflag1 : controllers w1 !! c = Some true).
  { unfold w1, AbortController_abort. rewrite Hflag. cbn.
    apply list_lookup_insert_eq. by eapply lookup_lt_Some. }
  assert (Hcall1 : calls w1 !! c = Some call).
  { unfold w1, AbortController_abort. by rewrite Hflag. }
  assert (Hdoomed : aborted_in_flight w1 c).
  { split; [done|]. exists call. split; [done|]. left. by exists r. }
  exists w1. split; [|split; [|split; [done|split]]].
  - unfold abort. rewrite Hthis. cbn. by rewrite Hc.
  - unfold cancellations. rewrite filter_none; [done|].
    intros r' Hr' ->. apply (wf_cancelled_aborted _ Hwf) in Hr'.
    rewrite (pending_request_aborted _ _ _ _ Hwf Hcall Hpend), Hflag in Hr'.
    done.
  - intros reply.
    destruct (network_event_enabled w1 c call r reply Hw1 Hcall1 Hpend)
      as [Hev [w2 Hstep]].
    exists w2. split; [done|].
    rewrite (settle_aborted _ _ _ _ _ _ Hw1 Hcall1 Hpend Hflag1 Hev Hstep).
    apply result_of_set_state. by eapply lookup_lt_Some.
  - intros evs w2 Hexec.
    pose proof (exec_wf _ _ _ Hw1 Hexec) as Hw2. split.
    + apply NoDup_cancellations; [apply Hw2|].
      destruct (ext_cancelled _ _ (exec_extends _ _ _ Hexec)) as [more ->].
      rewrite Hcan. apply elem_of_app. left. apply elem_of_app. right. by left.
    + destruct (exec_aborted_in_flight _ _ _ _ Hw1 Hdoomed Hexec)
        as [_ (call2 & Hcall2 & Hst)].
      unfold result_of. rewrite Hcall2. cbn.
      destruct Hst as [[r2 Hst] | ->]; [|by right].
      left. by destruct (state call2).
Qed.

(** ** The factory and the endpoint *)

Lemma init_valid (attach : string -> string) (ed : Editor)
    (opts : gmap string JSValue) (u : JSValue) :
  config ed !! "simpleUpload" = Some (JObj opts) ->
  opts !! "uploadUrl" = Some u ->
  truthy u = true ->
  init attach ed
  = Normal (set_createUploadAdapter
              (fun loader => new_Adapter loader (JObj opts)) ed).
Proof.
  intros Hcfg Hu Htruthy. unfold init, config_get. rewrite Hcfg.
  cbn [default from_option id truthy negb get_prop]. rewrite Hu.
  cbn [default from_option id]. by rewrite Htruthy.
Qed.

(** C6, as the code has it: for a configuration object whose [uploadUrl] is
    truthy, [init] returns normally and registers a factory: afterwards the
    file repository's [createUploadAdapter] slot holds it, and nothing was
    logged. Each call of the factory is a construction: it
    returns an address that was free, so one distinct from every adapter
    there is, holding an adapter bound to the given loader and to the
    configuration object, with no controller yet; the adapters, calls,
    controllers and requests there were stay as they were, and two
    successive calls return different addresses. In every reachable world
    the instances are independent: an event leaves alone every adapter it
    does not act on, with its calls, their controllers' flags, their
    requests and the cancellations delivered for them. *)
Theorem factory_returns_fresh_independent_adapters
    (attach : string -> string) (ed : Editor)
    (opts : gmap string JSValue) (u : JSValue) :
  config ed !! "simpleUpload" = Some (JObj opts) ->
  opts !! "uploadUrl" = Some u ->
  truthy u = true ->
  exists ed' factory,
    init attach ed = Normal ed'
    /\ createUploadAdapter (fileRepository ed') = Some factory
    /\ config ed' = config ed
    /\ console ed' = console ed
    /\ (forall w ld,
          step (Construct ld (JObj opts)) w = Some (snd (factory ld w))
          /\ adapters w !! fst (factory ld w) = None
          /\ adapters (snd (factory ld w)) !! fst (factory ld w)
             = Some {| loader := ld; options := JObj opts;
                       abortController := None |}
          /\ (forall b this,
                adapters w !! b = Some this ->
                b <> fst (factory ld w)
                /\ adapters (snd (factory ld w)) !! b = Some this)
          /\ calls (snd (factory ld w)) = calls w
          /\ controllers (snd (factory ld w)) = controllers w
          /\ requests (snd (factory ld w)) = requests w
          /\ cancelled (snd (factory ld w)) = cancelled w)
    /\ (forall w ld1 ld2,
          fst (factory ld1 w) <> fst (factory ld2 (snd (factory ld1 w))))
    /\ (forall w ev w' b,
          reachable w -> step ev w = Some w' -> target w ev <> Some b ->
          (forall this,
             adapters w !! b = Some this -> adapters w' !! b = Some this)
          /\ forall c, owner w c = Some b ->
               calls w' !! c = calls w !! c
               /\ controllers w' !! c = controllers w !! c
               /\ requests_of w' c = requests_of w c
               /\ cancelled_of w' c = cancelled_of w c).
Proof.
  intros Hcfg Hu Htruthy.
  exists (set_createUploadAdapter
            (fun loader => new_Adapter loader (JObj opts)) ed),
    (fun loader => new_Adapter loader (JObj opts)).
  split; [by eapply init_valid|].
  split; [reflexivity|]. split; [reflexivity|]. split; [reflexivity|].
  split; [|split].
  - intros w ld. cbn [fst snd new_Adapter].
    split; [done|]. split; [by apply lookup_ge_None|].
    split; [cbn; apply lookup_snoc_length|]. split; [|done].
    intros b this Hb. split.
    + apply lookup_lt_Some in Hb. lia.
    + cbn. by apply lookup_app_l_Some.
  - intros w ld1 ld2. cbn. rewrite length_app. cbn. lia.
  - intros w ev w' b Hw. apply step_frame. by apply reachable_wf.
Qed.

(** C9: [init] accepts a configuration object on its [uploadUrl] alone, but
    an adapter made by the registered factory posts elsewhere: once the
    loader has delivered its file, the one request [upload] issues goes to
    the options' [CLOUDINARY_UPLOAD_URL] with the options'
    [CLOUDINARY_UPLOAD_PRESET] as preset, whatever [uploadUrl] is; when the
    accepted configuration has no [CLOUDINARY_UPLOAD_URL], the endpoint of
    the request is [undefined]. *)
Theorem upload_posts_to_CLOUDINARY_UPLOAD_URL
    (attach : string -> string) (ed : Editor)
    (opts : gmap string JSValue) (u : JSValue)
    (ld : FileLoader) (f : JSValue) (w : World) :
  config ed !! "simpleUpload" = Some (JObj opts) ->
  opts !! "uploadUrl" = Some u ->
  truthy u = true ->
  file ld = Normal f ->
  exists factory,
    init attach ed = Normal (set_createUploadAdapter factory ed)
    /\ let a := fst (factory ld w) in
       let w1 := snd (factory ld w) in
       let c := length (calls w) in
       exists w2,
         exec [CallUpload a; FileSettles c] w1 = Some w2
         /\ requests w2
            = requests w
              ++ [{| by_call := c;
                     input := default JUndefined (opts !! "CLOUDINARY_UPLOAD_URL");
                     init_of :=
                       upload_init (length (controllers w))
                         (default JUndefined (opts !! "CLOUDINARY_UPLOAD_PRESET"))
                         f |}]
         /\ (opts !! "CLOUDINARY_UPLOAD_URL" = None ->
             input <$> last (requests w2) = Some JUndefined).
Proof.
  intros Hcfg Hu Htruthy Hfile.
  exists (fun loader => new_Adapter loader (JObj opts)).
  split; [by eapply init_valid|]. cbn [fst snd new_Adapter].
  set (w1 := set_adapters _ w).
  destruct (upload_until_fetch w1 (length (adapters w))
              (new_Adapter_object ld (JObj opts))
              (default JUndefined (opts !! "CLOUDINARY_UPLOAD_PRESET"))
              (default JUndefined (opts !! "CLOUDINARY_UPLOAD_URL")) f)
    as (w2 & Hexec & _ & _ & Hreq & _); try done.
  { unfold w1. cbn. apply lookup_snoc_length. }
  exists w2. split; [done|]. split; [done|].
  intros Hnone. rewrite Hreq, last_snoc. cbn. by rewrite Hnone.
Qed.

(** ** Sample runs *)

Lemma reachable_world_constructed : reachable world_constructed.
Proof.
  exists [Construct sample_loader (JObj cloudinary_options)]. reflexivity.
Qed.

Lemma reachable_world_in_flight : reachable world_in_flight.
Proof. exists events_in_flight. vm_compute. reflexivity. Qed.

Lemma reachable_world_settled : reachable world_settled.
Proof. exists events_settled. vm_compute. reflexivity. Qed.

Lemma upload_resolves_with_secure_url_witness :
  exists w',
    exec [CallUpload 0; FileSettles 0; FetchSettles 0 (Normal ok_reply);
          JsonSettles 0] world_constructed = Some w'
    /\ result_of w' 0
       = Some (Normal (JObj {[ "default" := JStr "https://cdn.example.com/x.png" ]})).
Proof.
  apply (upload_resolves_with_secure_url world_constructed 0
           (new_Adapter_object sample_loader (JObj cloudinary_options))
           sample_file ok_reply
           {[ "secure_url" := JStr "https://cdn.example.com/x.png" ]}
           "https://cdn.example.com/x.png"); reflexivity.
Defined.



(** C3 does not hold as stated: on an adapter on which [upload()] was never
    called, [abort()] throws a [TypeError], as [abortController] is
    [undefined]. *)
Lemma abort_before_upload_throws :
  reachable world_constructed
  /\ calls world_constructed = []
  /\ abort 0 world_constructed
     = Some (Throw (TypeError "Cannot read property 'abort' of undefined"),
             world_constructed).
Proof. split; [apply reachable_world_constructed | split; reflexivity]. Qed.

Lemma abort_after_settled_witness :
  exists w',
    abort 0 world_settled = Some (Normal tt, w')
    /\ adapters w' = adapters world_settled
    /\ calls w' = calls world_settled
    /\ requests w' = requests world_settled
    /\ cancelled w' = cancelled world_settled
    /\ controllers w' = <[0 := true]> (controllers world_settled).
Proof.
  apply (abort_after_settled world_settled 0 0
           {| self := 0;
              state := Settled (Normal (JObj {[ "default" :=
                         JStr "https://cdn.example.com/x.png" ]})) |}
           (Normal (JObj {[ "default" := JStr "https://cdn.example.com/x.png" ]}))).
  - apply reachable_world_settled.
  - vm_compute. reflexivity.
  - vm_compute. reflexivity.
  - reflexivity.
Defined.

Lemma factory_returns_fresh_independent_adapters_witness :
  exists ed' factory,
    init (fun m => m) (sample_editor (JObj cloudinary_options)) = Normal ed'
    /\ createUploadAdapter (fileRepository ed') = Some factory
    /\ fst (factory sample_loader empty_world)
       <> fst (factory failing_loader (snd (factory sample_loader empty_world))).
Proof.
  destruct (factory_returns_fresh_independent_adapters (fun m => m)
              (sample_editor (JObj cloudinary_options)) cloudinary_options
              (JStr "http://example.com"))
    as (ed' & factory & Hinit & Hslot & _ & _ & _ & Hdistinct & _);
    [reflexivity..|].
  exists ed', factory. split; [exact Hinit|].
  split; [exact Hslot | apply Hdistinct].
Defined.

(** C6 does not hold as stated: a configuration whose [uploadUrl] is present
    but is the empty string is not taken as valid; [init] logs the warning
    and the factory slot stays empty. *)
Lemma init_empty_uploadUrl_registers_nothing :
  empty_uploadUrl_options !! "uploadUrl" = Some (JStr EmptyString)
  /\ exists ed',
       init (fun m => m) (sample_editor (JObj empty_uploadUrl_options))
       = Normal ed'
       /\ createUploadAdapter (fileRepository ed') = None
       /\ console ed' = [missing_uploadUrl_message].
Proof.
  split; [reflexivity|].
  exists (console_warn missing_uploadUrl_message
            (sample_editor (JObj empty_uploadUrl_options))).
  split; [|split]; reflexivity.
Qed.

(** C7 does not hold as stated: [abort()] called while [upload()] still
    awaits the loader's file reaches no transport, as no request exists yet;
    when the file promise then rejects, the call rejects with the loader's
    reason, not as aborted, and no request is ever issued. *)
Lemma abort_while_awaiting_file :
  (exec [Construct failing_loader (JObj cloudinary_options); CallUpload 0]
        empty_world
   ≫= (fun w => Some (result_of w 0))) = Some None
  /\ (exec [Construct failing_loader (JObj cloudinary_options); CallUpload 0;
            CallAbort 0; FileSettles 0] empty_world
      ≫= (fun w => Some (result_of w 0, requests w, cancelled w)))
     = Some (Some (Throw (Thrown (JStr "the file could not be read"))), [], []).
Proof. split; vm_compute; reflexivity. Qed.

Lemma abort_in_flight_witness :
  exists w1,
    abort 0 world_in_flight = Some (Normal tt, w1)
    /\ cancelled w1 = [0]
    /\ forall reply, exists w2,
         step (FetchSettles 0 reply) w1 = Some w2
         /\ result_of w2 0 = Some (Throw AbortError).
Proof.
  destruct (abort_in_flight world_in_flight 0 0
              {| self := 0; state := OnFetch 0 upload_on_response |} 0)
    as (w1 & Habort & _ & Hcancelled & Hsettle & _).
  - apply reachable_world_in_flight.
  - vm_compute. reflexivity.
  - vm_compute. reflexivity.
  - reflexivity.
  - vm_compute. reflexivity.
  - exists w1. split; [exact Habort|]. split; [exact Hcancelled|].
    exact Hsettle.
Defined.

(** C8 does not hold as stated: a call of [upload()] whose loader's file
    promise rejects settles without having issued any request. *)
Lemma upload_without_file_issues_no_request :
  (exec [Construct failing_loader (JObj cloudinary_options); CallUpload 0;
         FileSettles 0] empty_world
   ≫= (fun w => Some (result_of w 0, requests w)))
  = Some (Some (Throw (Thrown (JStr "the file could not be read"))), []).
Proof. vm_compute. reflexivity. Qed.

Lemma upload_issues_at_most_one_request_witness :
  length (requests_of world_in_flight 0) = 1.
Proof.
  destruct (upload_issues_at_most_one_request world_in_flight 0
              {| self := 0; state := OnFetch 0 upload_on_response |}
              sample_adapter)
    as (_ & Hone & _).
  - apply reachable_world_in_flight.
  - vm_compute. reflexivity.
  - vm_compute. reflexivity.
  - apply Hone. reflexivity.
Defined.

Lemma upload_posts_to_CLOUDINARY_UPLOAD_URL_witness :
  exists factory,
    init (fun m => m) (sample_editor (JObj documented_options))
    = Normal (set_createUploadAdapter factory
                (sample_editor (JObj documented_options)))
    /\ exists w2,
         exec [CallUpload (fst (factory sample_loader empty_world)); FileSettles 0]
              (snd (factory sample_loader empty_world)) = Some w2
         /\ input <$> last (requests w2) = Some JUndefined.
Proof.
  destruct (upload_posts_to_CLOUDINARY_UPLOAD_URL (fun m => m)
              (sample_editor (JObj documented_options)) documented_options
              (JStr "http://example.com") sample_loader sample_file empty_world)
    as (factory & Hinit & w2 & Hexec & _ & Hundefined); [reflexivity..|].
  exists factory. split; [exact Hinit|]. exists w2. split; [exact Hexec|].
  apply Hundefined. reflexivity.
Defined.

Lemma request_has_no_headers_witness :
  sample_request ∈ requests world_in_flight
  /\ get_prop (JObj cloudinary_options) "headers"
     = Normal (JObj {[ "Authorization" := JStr "Bearer token" ]})
  /\ exists a ld opts preset f,
       owner world_in_flight (by_call sample_request) = Some a
       /\ bound world_in_flight a = Some (ld, opts)
       /\ get_prop opts "CLOUDINARY_UPLOAD_PRESET" = Normal preset
       /\ file ld = Normal f
       /\ init_of sample_request
          = {| method := Some "POST";
               headers := None;
               body := Some [("upload_preset", preset); ("file", f)];
               signal := Some (by_call sample_request) |}.
Proof.
  assert (Hrq : sample_request ∈ requests world_in_flight).
  { apply list_elem_of_lookup. exists 0. vm_compute. reflexivity. }
  split; [exact Hrq|]. split; [reflexivity|].
  apply (request_has_no_headers world_in_flight sample_request
           reachable_world_in_flight Hrq).
Defined.

(** * Further properties *)

(** ** [init] on every configuration *)

(** X1: [init] never throws, whatever the configuration value, and leaves
    the configuration store alone. It does exactly one of three things: for
    a falsy value nothing at all; for a truthy value that fails the
    [uploadUrl] test it logs one warning and leaves the file repository as
    it was; for a value that passes the test it puts the factory for that
    value in the repository's [createUploadAdapter] slot and logs nothing. *)
Theorem init_outcome (attach : string -> string) (ed : Editor) :
  let options := config_get ed "simpleUpload" in
  exists ed',
    init attach ed = Normal ed'
    /\ config ed' = config ed
    /\ ((truthy options = false
         /\ fileRepository ed' = fileRepository ed
         /\ console ed' = console ed)
        \/ (truthy options = true /\ valid_config options = false
            /\ fileRepository ed' = fileRepository ed
            /\ console ed' = console ed ++ [attach missing_uploadUrl_message])
        \/ (valid_config options = true
            /\ createUploadAdapter (fileRepository ed')
               = Some (fun loader => new_Adapter loader options)
            /\ console ed' = console ed)).
Proof.
  intros options. unfold init. fold options.
  destruct (truthy options) eqn:Htruthy; cbn [negb].
  - destruct (get_prop_truthy options "uploadUrl" Htruthy) as [u Hu].
    rewrite Hu.
    assert (Hvalid : valid_config options = truthy u).
    { destruct options; cbn in Hu |- *; try discriminate;
        injection Hu as <-; reflexivity. }
    destruct (truthy u) eqn:Hu'; cbn [negb]; eexists;
      (split; [reflexivity|]); (split; [reflexivity|]).
    + right. right. rewrite Hvalid. by repeat split.
    + right. left. rewrite Hvalid. by repeat split.
  - exists ed. split; [reflexivity|]. split; [reflexivity|].
    left. by repeat split.
Qed.





(** ** How [upload] fails *)

(** X4: when the loader's file promise rejects with [e], [upload()] rejects
    with that same [e], in any world; the call has created its controller
    but has issued no request and nothing was cancelled. *)
Theorem upload_propagates_file_rejection
    (w : World) (a : AdapterRef) (this : Adapter) (e : Exn) :
  adapters w !! a = Some this ->
  truthy (options this) = true ->
  file (loader this) = Throw e ->
  let c := length (calls w) in
  exists w',
    exec [CallUpload a; FileSettles c] w = Some w'
    /\ result_of w' c = Some (Throw e)
    /\ requests w' = requests w
    /\ cancelled w' = cancelled w
    /\ controllers w' = controllers w ++ [false].
Proof.
  intros Hthis Hopts Hfile c.
  destruct (get_prop_truthy _ "CLOUDINARY_UPLOAD_PRESET" Hopts) as [preset Hp].
  assert (Hcall : calls (started a this w) !! c
                  = Some {| self := a;
                            state := OnFile (Throw e)
                                       (upload_on_file (length (controllers w))
                                          preset) |}).
  { unfold started, started_state. rewrite Hp, Hfile. cbn.
    apply lookup_snoc_length. }
  assert (Hthis' : adapters (started a this w) !! a
                   = Some (with_abortController (length (controllers w)) this)).
  { unfold started. cbn. by rewrite list_lookup_alter_eq, Hthis. }
  exists (set_state c (Settled (Throw e)) (started a this w)). split.
  { cbn [exec]. rewrite (step_CallUpload _ _ _ Hthis). cbn [mbind option_bind].
    by rewrite (step_FileSettles _ _ _ _ _ _ _ Hcall Hthis'). }
  split; [|done].
  apply result_of_set_state. by eapply lookup_lt_Some.
Qed.

Lemma upload_propagates_file_rejection_witness :
  exists w',
    exec [CallUpload 0; FileSettles 0]
         (snd (new_Adapter failing_loader (JObj cloudinary_options) empty_world))
    = Some w'
    /\ result_of w' 0 = Some (Throw (Thrown (JStr "the file could not be read")))
    /\ requests w' = [].
Proof.
  destruct (upload_propagates_file_rejection
              (snd (new_Adapter failing_loader (JObj cloudinary_options)
                      empty_world))
              0 (new_Adapter_object failing_loader (JObj cloudinary_options))
              (Thrown (JStr "the file could not be read")))
    as (w' & Hexec & Hres & Hreq & _); [reflexivity..|].
  exists w'. split; [exact Hexec|]. split; [exact Hres | exact Hreq].
Defined.

(** X5: when the request fails on the network (the promise of [fetch]
    rejects with [e]) and the call was not aborted, [upload()] rejects with
    that same [e]; its one request has been issued and is not retried. *)
Theorem upload_propagates_network_failure
    (w : World) (a : AdapterRef) (this : Adapter) (f : JSValue) (e : Exn) :
  adapters w !! a = Some this ->
  truthy (options this) = true ->
  file (loader this) = Normal f ->
  let c := length (calls w) in
  exists w',
    exec [CallUpload a; FileSettles c; FetchSettles c (Throw e)] w = Some w'
    /\ result_of w' c = Some (Throw e)
    /\ length (requests w') = S (length (requests w))
    /\ step (FetchSettles c (Throw e)) w' = None
    /\ step (JsonSettles c) w' = None.
Proof.
  intros Hthis Hopts Hfile c.
  destruct (get_prop_truthy _ "CLOUDINARY_UPLOAD_PRESET" Hopts) as [preset Hp].
  destruct (get_prop_truthy _ "CLOUDINARY_UPLOAD_URL" Hopts) as [url Hu].
  destruct (upload_until_fetch w a this preset url f Hthis Hp Hu Hfile)
    as (w2 & Hexec & Hcall & Hlen & Hreq & Hlive & _).
  exists (set_state c (Settled (Throw e)) w2).
  assert (Hsettled : calls (set_state c (Settled (Throw e)) w2) !! c
                     = Some {| self := a; state := Settled (Throw e) |})
    by exact (set_state_lookup _ _ _ _ Hcall).
  split; [|split; [|split; [|split]]].
  - change [CallUpload a; FileSettles c; FetchSettles c (Throw e)]
      with ([CallUpload a; FileSettles c] ++ [FetchSettles c (Throw e)]).
    rewrite exec_app. fold c in Hexec. rewrite Hexec.
    cbn [mbind option_bind exec].
    rewrite (step_FetchSettles _ _ _ _ _ Hcall). cbn [mbind option_bind].
    unfold fetch_outcome. by rewrite Hlive.
  - apply result_of_set_state. by eapply lookup_lt_Some.
  - change (requests (set_state c (Settled (Throw e)) w2)) with (requests w2).
    rewrite Hreq, length_app. cbn. lia.
  - unfold step. by rewrite Hsettled.
  - unfold step. by rewrite Hsettled.
Qed.

Lemma upload_propagates_network_failure_witness :
  exists w',
    exec [CallUpload 0; FileSettles 0; FetchSettles 0 (Throw network_error)]
         world_constructed = Some w'
    /\ result_of w' 0 = Some (Throw network_error)
    /\ length (requests w') = 1.
Proof.
  destruct (upload_propagates_network_failure world_constructed 0
              (new_Adapter_object sample_loader (JObj cloudinary_options))
              sample_file network_error)
    as (w' & Hexec & Hres & Hreq & _); [reflexivity..|].
  exists w'. split; [exact Hexec|]. split; [exact Hres | exact Hreq].
Defined.

(** X6: a response whose body parses to an object without [secure_url] (an
    error report, say) does not make [upload()] fail: it resolves with
    [{ default: undefined }]. *)
Theorem upload_resolves_without_secure_url
    (w : World) (a : AdapterRef) (this : Adapter) (f : JSValue)
    (reply : Reply) (parsed : gmap string JSValue) :
  adapters w !! a = Some this ->
  truthy (options this) = true ->
  file (loader this) = Normal f ->
  reply_json reply = Normal (JObj parsed) ->
  parsed !! "secure_url" = None ->
  let c := length (calls w) in
  exists w',
    exec [CallUpload a; FileSettles c; FetchSettles c (Normal reply);
          JsonSettles c] w = Some w'
    /\ result_of w' c = Some (Normal (JObj {[ "default" := JUndefined ]})).
Proof.
  intros Hthis Hopts Hfile Hjson Hmissing c.
  destruct (upload_completes w a this f reply Hthis Hopts Hfile)
    as (w' & Hexec & Hres).
  exists w'. split; [done|]. fold c in Hres. rewrite Hres, Hjson.
  unfold json_result. cbn. by rewrite Hmissing.
Qed.

Lemma upload_resolves_without_secure_url_witness :
  exists w',
    exec [CallUpload 0; FileSettles 0; FetchSettles 0 (Normal error_reply);
          JsonSettles 0] world_constructed = Some w'
    /\ result_of w' 0 = Some (Normal (JObj {[ "default" := JUndefined ]})).
Proof.
  apply (upload_resolves_without_secure_url world_constructed 0
           (new_Adapter_object sample_loader (JObj cloudinary_options))
           sample_file error_reply
           {[ "error" := JObj {[ "message" := JStr "Internal Server Error" ]} ]});
    reflexivity.
Defined.

(** X7: a response whose body is the JSON text [null] parses, but the
    destructuring of [secure_url] from [null] throws: [upload()] rejects
    with a [TypeError]. *)
Theorem upload_rejects_on_null_body
    (w : World) (a : AdapterRef) (this : Adapter) (f : JSValue) (reply : Reply) :
  adapters w !! a = Some this ->
  truthy (options this) = true ->
  file (loader this) = Normal f ->
  reply_json reply = Normal JNull ->
  let c := length (calls w) in
  exists w' msg,
    exec [CallUpload a; FileSettles c; FetchSettles c (Normal reply);
          JsonSettles c] w = Some w'
    /\ result_of w' c = Some (Throw (TypeError msg)).
Proof.
  intros Hthis Hopts Hfile Hjson c.
  destruct (upload_completes w a this f reply Hthis Hopts Hfile)
    as (w' & Hexec & Hres).
  exists w'. eexists. split; [done|]. fold c in Hres. rewrite Hres, Hjson.
  reflexivity.
Qed.

Lemma upload_rejects_on_null_body_witness :
  exists w' msg,
    exec [CallUpload 0; FileSettles 0;
          FetchSettles 0 (Normal {| reply_status := 200;
                                    reply_json := Normal JNull |});
          JsonSettles 0] world_constructed = Some w'
    /\ result_of w' 0 = Some (Throw (TypeError msg)).
Proof.
  apply (upload_rejects_on_null_body world_constructed 0
           (new_Adapter_object sample_loader (JObj cloudinary_options))
           sample_file
           {| reply_status := 200; reply_json := Normal JNull |});
    reflexivity.
Defined.

(** ** How [abort] composes *)

Lemma abort_keeps (a : AdapterRef) (w w1 : World) (o : Completion unit) :
  abort a w = Some (o, w1) ->
  adapters w1 = adapters w /\ calls w1 = calls w /\ requests w1 = requests w.
Proof.
  unfold abort. destruct (adapters w !! a) as [this|]; [|done]. cbn.
  destruct (abortController this) as [c|]; intros [= <- <-]; [|done].
  unfold AbortController_abort. by destruct (controllers w !! c) as [[]|].
Qed.

(** X8: [abort()] is idempotent, in every world: a second call right after
    the first completes the same way and changes nothing more, not the
    flags, not the cancellations delivered. *)
Theorem abort_idempotent
    (a : AdapterRef) (w w1 : World) (o : Completion unit) :
  abort a w = Some (o, w1) ->
  abort a w1 = Some (o, w1).
Proof.
  unfold abort. destruct (adapters w !! a) as [this|] eqn:Hthis; [|done]. cbn.
  destruct (abortController this) as [c|] eqn:Hc; intros [= <- <-].
  - unfold AbortController_abort.
    destruct (controllers w !! c) as [[]|] eqn:Hflag.
    + rewrite Hthis. cbn. by rewrite Hc, Hflag.
    + cbn. rewrite Hthis. cbn. rewrite Hc.
      rewrite list_lookup_insert_eq by (by eapply lookup_lt_Some). done.
    + rewrite Hthis. cbn. by rewrite Hc, Hflag.
  - rewrite Hthis. cbn. by rewrite Hc.
Qed.

Lemma abort_idempotent_witness :
  abort 0 (AbortController_abort 0 world_in_flight)
  = Some (Normal tt, AbortController_abort 0 world_in_flight).
Proof.
  apply (abort_idempotent 0 world_in_flight). vm_compute. reflexivity.
Defined.

(** X11: [abort()] does not spoil the adapter. In any world, a call of
    [upload()] made after [abort()] gets a controller of its own, whose
    signal is not aborted, and settles by its response as any other call
    does. *)
Theorem upload_after_abort
    (w : World) (a : AdapterRef) (this : Adapter) (f : JSValue) (reply : Reply) :
  adapters w !! a = Some this ->
  truthy (options this) = true ->
  file (loader this) = Normal f ->
  let c := length (calls w) in
  exists w',
    exec [CallAbort a; CallUpload a; FileSettles c;
          FetchSettles c (Normal reply); JsonSettles c] w = Some w'
    /\ result_of w' c = Some (json_result (reply_json reply)).
Proof.
  intros Hthis Hopts Hfile c.
  destruct (abort a w) as [[o w0]|] eqn:Habort.
  2:{ unfold abort in Habort. rewrite Hthis in Habort. cbn in Habort.
      by destruct (abortController this). }
  destruct (abort_keeps _ _ _ _ Habort) as (Had & Hcalls & _).
  destruct (upload_completes w0 a this f reply) as (w' & Hexec & Hres);
    [by rewrite Had | done | done |].
  rewrite Hcalls in Hexec, Hres. exists w'. split; [|done].
  cbn [exec]. change (step (CallAbort a) w) with (snd <$> abort a w).
  rewrite Habort. exact Hexec.
Qed.

Lemma upload_after_abort_witness :
  exists w',
    exec [CallAbort 0; CallUpload 0; FileSettles 1;
          FetchSettles 1 (Normal ok_reply); JsonSettles 1] world_in_flight
    = Some w'
    /\ result_of w' 1
       = Some (Normal (JObj {[ "default" := JStr "https://cdn.example.com/x.png" ]})).
Proof.
  apply (upload_after_abort world_in_flight 0 sample_adapter sample_file
           ok_reply); [vm_compute; reflexivity | reflexivity | reflexivity].
Defined.

Section Armed.

Implicit Types (w : World) (a b : AdapterRef) (c : nat).

Lemma armed_alter w a c b :
  armed w b -> armed (set_adapters (alter (with_abortController c) a) w) b.
Proof.
  intros (this & c' & Hthis & Hc'). unfold armed. cbn.
  destruct (decide (a = b)) as [->|Hne].
  - exists (with_abortController c this), c.
    by rewrite list_lookup_alter_eq, Hthis.
  - exists this, c'. by rewrite list_lookup_alter_ne.
Qed.

Lemma run_armed a me prog w b :
  armed w b -> armed (snd (run a me prog w)) b.
Proof.
  revert w. induction prog as [v|e|k IH|k IH|c k IH|p k _|url init k _|res k _];
    intros w Hb; cbn [run]; try done.
  - destruct (adapters w !! a); [by apply IH | done].
  - by apply IH.
  - apply IH. by apply armed_alter.
  - by destruct (signal_aborted w (signal init)).
Qed.

Lemma resume_armed a c prog w b : armed w b -> armed (resume a c prog w) b.
Proof.
  intros Hb. unfold resume. pose proof (run_armed a c prog w b Hb) as Hrun.
  by destruct (run a c prog w) as [st w1].
Qed.

(** Once an adapter has a controller it keeps having one. *)
Lemma step_armed ev w w' b : step ev w = Some w' -> armed w b -> armed w' b.
Proof.
  intros Hstep Hb. destruct ev as [ld opts|a|a|c|c reply|c].
  - injection Hstep as <-. destruct Hb as (this & c & Hthis & Hc).
    exists this, c. split; [|done]. cbn. by apply lookup_app_l_Some.
  - unfold step in Hstep.
    destruct (decide (a < length (adapters w))); [|done].
    pose proof (run_armed a (length (calls w)) upload w b Hb) as Hrun.
    destruct (run a (length (calls w)) upload w) as [st w1].
    by injection Hstep as <-.
  - unfold step in Hstep.
    destruct (abort a w) as [[o w1]|] eqn:Habort; [|done].
    injection Hstep as <-. destruct (abort_keeps _ _ _ _ Habort) as (Had & _).
    unfold armed. by rewrite Had.
  - unfold step in Hstep. destruct (calls w !! c) as [[a []]|]; try done.
    injection Hstep as <-. by apply resume_armed.
  - unfold step in Hstep. destruct (calls w !! c) as [[a []]|]; try done.
    injection Hstep as <-. by apply resume_armed.
  - unfold step in Hstep. destruct (calls w !! c) as [[a []]|]; try done.
    injection Hstep as <-. by apply resume_armed.
Qed.

Lemma step_CallUpload_armed w w' a : step (CallUpload a) w = Some w' -> armed w' a.
Proof.
  intros Hstep. destruct (adapters w !! a) as [this|] eqn:Hthis.
  - rewrite (step_CallUpload _ _ _ Hthis) in Hstep. injection Hstep as <-.
    exists (with_abortController (length (controllers w)) this),
      (length (controllers w)).
    split; [|done]. unfold started. cbn.
    by rewrite list_lookup_alter_eq, Hthis.
  - apply lookup_ge_None in Hthis. unfold step in Hstep.
    rewrite decide_False in Hstep by lia. discriminate.
Qed.

(** A call belongs to the adapter [upload()] was called on, from the event
    that made it. *)
Lemma step_owner_inv ev w w' c a :
  step ev w = Some w' -> owner w' c = Some a ->
  owner w c = Some a \/ ev = CallUpload a.
Proof.
  intros Hstep Ho. destruct ev as [ld opts|a0|a0|c0|c0 reply|c0].
  - injection Hstep as <-. by left.
  - unfold step in Hstep.
    destruct (decide (a0 < length (adapters w))); [|done].
    pose proof (run_calls a0 (length (calls w)) upload w) as Hrun.
    destruct (run a0 (length (calls w)) upload w) as [st w1].
    injection Hstep as <-. unfold owner in Ho |- *. cbn in Ho, Hrun.
    rewrite Hrun in Ho.
    destruct (calls w !! c) as [call|] eqn:Hcall.
    + rewrite (lookup_app_l_Some _ _ _ _ Hcall) in Ho. by left.
    + apply lookup_ge_None in Hcall. rewrite lookup_app_r in Ho by done.
      destruct (c - length (calls w)); cbn in Ho; [|done].
      injection Ho as <-. by right.
  - unfold step in Hstep.
    destruct (abort a0 w) as [[o w1]|] eqn:Habort; [|done].
    injection Hstep as <-.
    destruct (abort_keeps _ _ _ _ Habort) as (_ & Hcalls & _).
    left. unfold owner in *. by rewrite <- Hcalls.
  - unfold step in Hstep. destruct (calls w !! c0) as [[a0 []]|]; try done.
    injection Hstep as <-. left. unfold resume in Ho.
    pose proof (run_calls a0 c0 (Try p k) w) as Hrun.
    destruct (run a0 c0 (Try p k) w) as [st w1].
    rewrite owner_set_state in Ho. unfold owner in *. by rewrite <- Hrun.
  - unfold step in Hstep. destruct (calls w !! c0) as [[a0 []]|]; try done.
    injection Hstep as <-. left. unfold resume in Ho.
    pose proof (run_calls a0 c0 (Try (fetch_outcome w r reply) k) w) as Hrun.
    destruct (run a0 c0 (Try (fetch_outcome w r reply) k) w) as [st w1].
    rewrite owner_set_state in Ho. unfold owner in *. by rewrite <- Hrun.
  - unfold step in Hstep. destruct (calls w !! c0) as [[a0 []]|]; try done.
    injection Hstep as <-. left. unfold resume in Ho.
    pose proof (run_calls a0 c0 (Try (json_outcome w res) k) w) as Hrun.
    destruct (run a0 c0 (Try (json_outcome w res) k) w) as [st w1].
    rewrite owner_set_state in Ho. unfold owner in *. by rewrite <- Hrun.
Qed.

Lemma exec_calls_armed evs w w' :
  (forall c a, owner w c = Some a -> armed w a) ->
  exec evs w = Some w' ->
  forall c a, owner w' c = Some a -> armed w' a.
Proof.
  revert w. induction evs as [|ev evs IH]; intros w Hinv; cbn.
  - by intros [= <-].
  - destruct (step ev w) as [w1|] eqn:Hstep; [|done]. cbn.
    apply IH. intros c a Ho.
    destruct (step_owner_inv _ _ _ _ _ Hstep Ho) as [Hold | ->].
    + eapply step_armed; [done|]. by eapply Hinv.
    + by eapply step_CallUpload_armed.
Qed.

End Armed.

(** X9: in a reachable world, [abort()] on an adapter on which [upload()]
    has been called at least once, however that call went, never throws:
    the adapter holds a controller from its first call of [upload()] on. *)
Theorem abort_after_upload_never_throws
    (w : World) (c : nat) (a : AdapterRef) :
  reachable w ->
  owner w c = Some a ->
  exists w1, abort a w = Some (Normal tt, w1).
Proof.
  intros [evs Hevs] Ho.
  destruct (exec_calls_armed evs empty_world w) with (c := c) (a := a)
    as (this & c' & Hthis & Hc'); try done.
  unfold abort. rewrite Hthis. cbn. rewrite Hc'. by eexists.
Qed.

Lemma abort_after_upload_never_throws_witness :
  exists w1, abort 0 world_settled = Some (Normal tt, w1).
Proof.
  apply (abort_after_upload_never_throws world_settled 0 0).
  - apply reachable_world_settled.
  - vm_compute. reflexivity.
Defined.

(** X10: [abort()] reaches only the latest call of [upload()] on the
    adapter, whose controller the adapter holds. Every other call, an
    earlier call on the same adapter included, keeps its state and its
    signal's flag, and no cancellation is delivered for its request. *)
Theorem abort_reaches_only_latest_call
    (w : World) (a : AdapterRef) (c : nat) :
  reachable w ->
  latest_call w a = Some c ->
  exists w1,
    abort a w = Some (Normal tt, w1)
    /\ calls w1 = calls w
    /\ forall c', c' <> c ->
         controllers w1 !! c' = controllers w !! c'
         /\ cancelled_of w1 c' = cancelled_of w c'.
Proof.
  intros Hw Hlast. pose proof (reachable_wf _ Hw) as Hwf.
  destruct (latest_call_controller _ _ _ Hw Hlast) as (this & Hthis & Hc).
  exists (AbortController_abort c w). split.
  { unfold abort. rewrite Hthis. cbn. by rewrite Hc. }
  unfold AbortController_abort.
  destruct (controllers w !! c) as [[]|]; try done.
  split; [done|]. intros c' Hne. split.
  - cbn. by apply list_lookup_insert_ne.
  - unfold cancelled_of. cbn [cancelled set_cancelled requests set_controllers].
    rewrite filter_app.
    rewrite (filter_none _ (in_flight_with c w)), app_nil_r; [done|].
    intros r Hr.
    apply (in_flight_with_elem _ _ _ Hwf) in Hr
      as (call & rq & _ & _ & Hrq & Hby & _).
    cbn. rewrite Hrq. cbn. congruence.
Qed.

Lemma abort_reaches_only_latest_call_witness :
  exists w1,
    abort 0 world_two_uploads = Some (Normal tt, w1)
    /\ cancelled w1 = [1]
    /\ controllers w1 !! 0 = Some false
    /\ cancelled_of w1 0 = [].
Proof.
  destruct (abort_reaches_only_latest_call world_two_uploads 0 1)
    as (w1 & Habort & _ & Hother).
  - exists events_two_uploads. vm_compute. reflexivity.
  - vm_compute. reflexivity.
  - exists w1. split; [exact Habort|].
    destruct (Hother 0) as [Hflag Hcancelled]; [discriminate|].
    rewrite Hflag, Hcancelled. vm_compute in Habort.
    injection Habort as <-. repeat split.
Defined.

(** X17: when [abort()] came while [upload()] still awaited the loader's
    file and the file then arrives, the call hands the aborted signal to
    [fetch]: it rejects with [AbortError] and no request goes out. *)
Theorem upload_aborted_before_fetch
    (w : World) (c : nat) (call : Call) (this : Adapter) (f : JSValue) :
  reachable w ->
  calls w !! c = Some call ->
  on_file (state call) = true ->
  adapters w !! self call = Some this ->
  truthy (options this) = true ->
  file (loader this) = Normal f ->
  controllers w !! c = Some true ->
  exists w',
    step (FileSettles c) w = Some w'
    /\ result_of w' c = Some (Throw AbortError)
    /\ requests w' = requests w
    /\ cancelled w' = cancelled w.
Proof.
  intros Hw Hcall Hon Hthis Hopts Hf Hflag.
  pose proof (reachable_wf _ Hw) as Hwf.
  pose proof (wf_call _ Hwf _ _ Hcall) as Hok.
  destruct call as [a st]. cbn in Hthis, Hon.
  inversion Hok as [? ld opts preset Hb Hp Hnone| | | |]; subst;
    try discriminate.
  unfold bound in Hb. rewrite Hthis in Hb. injection Hb as <- <-.
  destruct (get_prop_truthy _ "CLOUDINARY_UPLOAD_URL" Hopts) as [url Hu].
  exists (set_state c (Settled (Throw AbortError)) w). split.
  { rewrite (step_FileSettles _ _ _ this _ _ _ Hcall Hthis).
    unfold file_settled, signal_aborted. by rewrite Hf, Hu, Hflag. }
  split; [|done]. apply result_of_set_state. by eapply lookup_lt_Some.
Qed.

Lemma upload_aborted_before_fetch_witness :
  exists w',
    step (FileSettles 0) world_aborted_on_file = Some w'
    /\ result_of w' 0 = Some (Throw AbortError)
    /\ requests w' = requests world_aborted_on_file
    /\ cancelled w' = cancelled world_aborted_on_file.
Proof.
  apply (upload_aborted_before_fetch world_aborted_on_file 0
           {| self := 0;
              state := OnFile (Normal sample_file)
                         (upload_on_file 0 (JStr "unsigned_preset")) |}
           sample_adapter sample_file).
  - exists events_aborted_on_file. vm_compute. reflexivity.
  - vm_compute. reflexivity.
  - reflexivity.
  - vm_compute. reflexivity.
  - reflexivity.
  - reflexivity.
  - vm_compute. reflexivity.
Defined.

(** ** What the adapter never does *)

(** X15: no sequence of events changes the loader or the options an adapter
    was constructed with; [upload] only ever writes [abortController]. *)
Theorem adapter_binding_is_permanent
    (evs : list Event) (w w' : World) (a : AdapterRef) (this : Adapter) :
  exec evs w = Some w' ->
  adapters w !! a = Some this ->
  exists this',
    adapters w' !! a = Some this'
    /\ loader this' = loader this
    /\ options this' = options this.
Proof.
  intros Hexec Hthis.
  pose proof (ext_bound _ _ (exec_extends _ _ _ Hexec) a
                (loader this, options this)) as Hb.
  unfold bound in Hb. rewrite Hthis in Hb. specialize (Hb eq_refl).
  destruct (adapters w' !! a) as [this'|]; [|done].
  injection Hb as Hl Ho. by exists this'.
Qed.

Lemma adapter_binding_is_permanent_witness :
  exists this',
    adapters world_settled !! 0 = Some this'
    /\ loader this' = sample_loader
    /\ options this' = JObj cloudinary_options.
Proof.
  apply (adapter_binding_is_permanent
           [CallUpload 0; FileSettles 0; FetchSettles 0 (Normal ok_reply);
            JsonSettles 0]
           world_constructed world_settled 0
           (new_Adapter_object sample_loader (JObj cloudinary_options)));
    vm_compute; reflexivity.
Defined.

(** X14: in a reachable world the controller an adapter holds was created by
    one of its own calls of [upload()], and no two adapters hold the same
    controller; every call of [upload()] has created exactly one. *)
Theorem controllers_are_not_shared
    (w : World) (a b : AdapterRef) (this this' : Adapter) (c : nat) :
  reachable w ->
  adapters w !! a = Some this ->
  abortController this = Some c ->
  owner w c = Some a
  /\ length (controllers w) = length (calls w)
  /\ (adapters w !! b = Some this' -> abortController this' = Some c -> a = b).
Proof.
  intros Hw Hthis Hc. pose proof (reachable_wf _ Hw) as Hwf.
  pose proof (wf_adapter _ Hwf _ _ _ Hthis Hc) as Ho.
  split; [done|]. split; [apply Hwf|].
  intros Hthis' Hc'. pose proof (wf_adapter _ Hwf _ _ _ Hthis' Hc') as Ho'.
  congruence.
Qed.

Lemma controllers_are_not_shared_witness :
  owner world_two_uploads 1 = Some 0
  /\ length (controllers world_two_uploads) = length (calls world_two_uploads)
  /\ (adapters world_two_uploads !! 0 = Some (with_abortController 1 sample_adapter) ->
      abortController (with_abortController 1 sample_adapter) = Some 1 -> 0 = 0).
Proof.
  apply (controllers_are_not_shared world_two_uploads 0 0
           (with_abortController 1 sample_adapter)
           (with_abortController 1 sample_adapter) 1).
  - exists events_two_uploads. vm_compute. reflexivity.
  - vm_compute. reflexivity.
  - reflexivity.
Defined.

Lemma run_cancelled (a : AdapterRef) (me : nat) (prog : Async) (w : World) :
  cancelled (snd (run a me prog w)) = cancelled w
  /\ exists more, controllers (snd (run a me prog w)) = controllers w ++ more.
Proof.
  revert w. induction prog as [v|e|k IH|k IH|c k IH|p k _|url init k _|res k _];
    intros w; cbn [run]; try (split; [done | by exists []; rewrite app_nil_r]).
  - destruct (adapters w !! a); [apply IH|].
    split; [done | by exists []; rewrite app_nil_r].
  - destruct (IH (length (controllers w))
                (set_controllers (fun h => h ++ [false]) w)) as [Hc [more Hm]].
    split; [done|]. exists ([false] ++ more). by rewrite Hm, app_assoc.
  - exact (IH (set_adapters (alter (with_abortController c) a) w)).
  - destruct (signal_aborted w (signal init));
      (split; [done | by exists []; rewrite app_nil_r]).
Qed.

Lemma resume_cancelled (a : AdapterRef) (c : nat) (prog : Async) (w : World) :
  cancelled (resume a c prog w) = cancelled w
  /\ exists more, controllers (resume a c prog w) = controllers w ++ more.
Proof.
  unfold resume. pose proof (run_cancelled a c prog w) as Hrun.
  by destruct (run a c prog w) as [st w1].
Qed.

(** X13: the adapter has no timeout and never cancels on its own. In any
    world, an event other than a call of [abort()] delivers no cancellation
    and leaves the flag of every existing signal as it was. *)
Theorem only_abort_cancels (ev : Event) (w w' : World) :
  step ev w = Some w' ->
  (forall a, ev <> CallAbort a) ->
  cancelled w' = cancelled w
  /\ forall c flag,
       controllers w !! c = Some flag -> controllers w' !! c = Some flag.
Proof.
  intros Hstep Hev.
  assert (Hmore : forall w1,
            (cancelled w1 = cancelled w
             /\ exists more, controllers w1 = controllers w ++ more) ->
            cancelled w1 = cancelled w
            /\ forall c flag, controllers w !! c = Some flag ->
                              controllers w1 !! c = Some flag).
  { intros w1 [Hc [more Hm]]. split; [done|]. intros c flag Hflag.
    rewrite Hm. by apply lookup_app_l_Some. }
  destruct ev as [ld opts|a|a|c|c reply|c].
  - injection Hstep as <-. by split.
  - unfold step in Hstep.
    destruct (decide (a < length (adapters w))); [|done].
    pose proof (run_cancelled a (length (calls w)) upload w) as Hrun.
    destruct (run a (length (calls w)) upload w) as [st w1].
    injection Hstep as <-. by apply Hmore.
  - by destruct (Hev a).
  - unfold step in Hstep. destruct (calls w !! c) as [[a []]|]; try done.
    injection Hstep as <-. apply Hmore, resume_cancelled.
  - unfold step in Hstep. destruct (calls w !! c) as [[a []]|]; try done.
    injection Hstep as <-. apply Hmore, resume_cancelled.
  - unfold step in Hstep. destruct (calls w !! c) as [[a []]|]; try done.
    injection Hstep as <-. apply Hmore, resume_cancelled.
Qed.

Lemma only_abort_cancels_witness :
  exists w',
    step (FetchSettles 0 (Normal ok_reply)) world_in_flight = Some w'
    /\ cancelled w' = cancelled world_in_flight
    /\ controllers w' !! 0 = Some false.
Proof.
  destruct (step (FetchSettles 0 (Normal ok_reply)) world_in_flight)
    as [w'|] eqn:Hstep; [|vm_compute in Hstep; discriminate].
  destruct (only_abort_cancels (FetchSettles 0 (Normal ok_reply))
              world_in_flight w' Hstep) as [Hcancelled Hflags];
    [discriminate|].
  exists w'. split; [reflexivity|]. split; [exact Hcancelled|].
  apply Hflags. vm_compute. reflexivity.
Defined.

Section Shapes.

Implicit Types (w : World) (a : AdapterRef) (c : nat).

(** What resuming a call makes of it: the stage it moves to, and the
    request it issues on the way, if any. *)
Lemma settle_result w w' ev c0 :
  wf w -> step ev w = Some w' -> settles ev = Some c0 ->
  exists a st,
    calls w' = alter (fun call => {| self := self call; state := st |})
                 c0 (calls w)
    /\ calls w' !! c0 = Some {| self := a; state := st |}
    /\ (forall v, st = Settled (Normal v) -> upload_result_shape v)
    /\ (requests w' = requests w
        \/ exists rq, ev = FileSettles c0
                      /\ requests w' = requests w ++ [rq]
                      /\ by_call rq = c0
                      /\ method (init_of rq) = Some "POST").
Proof.
  intros Hwf Hstep Hev.
  destruct ev as [ld opts|a|a|c|c reply|c]; try discriminate;
    injection Hev as ->;
    (destruct (calls w !! c0) as [[a st]|] eqn:Hcall;
      [|by (unfold step in Hstep; rewrite Hcall in Hstep)]);
    pose proof (wf_call _ Hwf _ _ Hcall) as Hok.
  - inversion Hok as [? ld opts preset Hb Hp Hnone| | | |]; subst;
      try by (unfold step in Hstep; rewrite Hcall in Hstep).
    destruct (bound_lookup _ _ _ _ Hb) as (this & Hthis & <- & <-).
    rewrite (step_FileSettles _ _ _ _ _ _ _ Hcall Hthis) in Hstep.
    injection Hstep as <-. unfold file_settled.
    destruct (file (loader this)) as [f|e];
      [|exists a; eexists; split; [reflexivity|];
        split; [exact (set_state_lookup _ _ _ _ Hcall)|]; split; [done | by left]].
    destruct (get_prop (options this) "CLOUDINARY_UPLOAD_URL") as [url|e];
      [|exists a; eexists; split; [reflexivity|];
        split; [exact (set_state_lookup _ _ _ _ Hcall)|]; split; [done | by left]].
    destruct (signal_aborted w (Some c0));
      [exists a; eexists; split; [reflexivity|];
        split; [exact (set_state_lookup _ _ _ _ Hcall)|]; split; [done | by left]|].
    exists a. eexists. split; [reflexivity|].
    split; [exact (set_state_lookup (set_requests _ w) c0 _ _ Hcall)|].
    split; [done|]. right. by eexists.
  - inversion Hok; subst;
      try by (unfold step in Hstep; rewrite Hcall in Hstep).
    rewrite (step_FetchSettles _ _ _ _ _ Hcall) in Hstep.
    injection Hstep as <-. exists a. eexists. split; [reflexivity|].
    split; [exact (set_state_lookup _ _ _ _ Hcall)|]. split; [|by left].
    intros v Hv. unfold fetch_settled_state in Hv.
    by destruct (fetch_outcome w r reply).
  - inversion Hok; subst;
      try by (unfold step in Hstep; rewrite Hcall in Hstep).
    rewrite (step_JsonSettles _ _ _ _ Hcall) in Hstep.
    injection Hstep as <-. exists a. eexists. split; [reflexivity|].
    split; [exact (set_state_lookup _ _ _ _ Hcall)|]. split; [|by left].
    intros v Hv. unfold json_settled_state in Hv.
    destruct (json_outcome w res) as [parsed|e]; [|done].
    destruct (get_prop parsed "secure_url") as [x|e]; [|done].
    injection Hv as <-. by exists x.
Qed.

End Shapes.

(** X12: [upload()] sends nothing when it is called. In a reachable world an
    event leaves the requests as they are, unless it is the arrival of the
    loader's file for some call: that event issues at most one request, a
    POST of that call. [abort()], a response and a body never cause a
    request. *)
Theorem request_only_when_file_arrives (ev : Event) (w w' : World) :
  reachable w ->
  step ev w = Some w' ->
  requests w' = requests w
  \/ exists c rq,
       ev = FileSettles c
       /\ requests w' = requests w ++ [rq]
       /\ by_call rq = c
       /\ method (init_of rq) = Some "POST".
Proof.
  intros Hw Hstep. pose proof (reachable_wf _ Hw) as Hwf.
  destruct (settles ev) as [c0|] eqn:Hev.
  - destruct (settle_result _ _ _ _ Hwf Hstep Hev)
      as (a & st & _ & _ & _ & [Hsame | (rq & Hfile & Hreq)]); [by left|].
    right. by exists c0, rq.
  - left. destruct ev as [ld opts|a|a|c|c reply|c]; try discriminate.
    + by injection Hstep as <-.
    + destruct (adapters w !! a) as [this|] eqn:Hthis.
      * rewrite (step_CallUpload _ _ _ Hthis) in Hstep. by injection Hstep as <-.
      * apply lookup_ge_None in Hthis. unfold step in Hstep.
        rewrite decide_False in Hstep by lia. discriminate.
    + unfold step in Hstep.
      destruct (abort a w) as [[o w1]|] eqn:Habort; [|done].
      injection Hstep as <-. by destruct (abort_keeps _ _ _ _ Habort) as (_ & _ & ?).
Qed.

Lemma request_only_when_file_arrives_witness :
  exists w',
    step (CallUpload 0) world_constructed = Some w'
    /\ requests w' = requests world_constructed.
Proof.
  destruct (step (CallUpload 0) world_constructed) as [w'|] eqn:Hstep;
    [|vm_compute in Hstep; discriminate].
  exists w'. split; [reflexivity|].
  destruct (request_only_when_file_arrives (CallUpload 0) world_constructed w'
              reachable_world_constructed Hstep)
    as [Hsame | (c & rq & Hev & _)]; [exact Hsame | discriminate].
Defined.

Section ResultShape.

Implicit Types (w : World) (a : AdapterRef) (c : nat).

Lemma step_result_shape ev w w' :
  wf w ->
  (forall c v, result_of w c = Some (Normal v) -> upload_result_shape v) ->
  step ev w = Some w' ->
  forall c v, result_of w' c = Some (Normal v) -> upload_result_shape v.
Proof.
  intros Hwf Hinv Hstep c v Hres.
  destruct (settles ev) as [c0|] eqn:Hev.
  - destruct (settle_result _ _ _ _ Hwf Hstep Hev)
      as (a & st & Hcalls & Hc0 & Hshape & _).
    destruct (decide (c0 = c)) as [->|Hne].
    + unfold result_of in Hres. rewrite Hc0 in Hres. cbn in Hres.
      destruct st as [| | |o]; try discriminate.
      injection Hres as ->. by apply Hshape.
    + apply (Hinv c). unfold result_of in Hres |- *.
      by rewrite Hcalls, list_lookup_alter_ne in Hres.
  - destruct ev as [ld opts|a|a|c0|c0 reply|c0]; try discriminate.
    + injection Hstep as <-. by apply (Hinv c).
    + destruct (adapters w !! a) as [this|] eqn:Hthis.
      2:{ apply lookup_ge_None in Hthis. unfold step in Hstep.
          rewrite decide_False in Hstep by lia. discriminate. }
      rewrite (step_CallUpload _ _ _ Hthis) in Hstep. injection Hstep as <-.
      unfold result_of, started in Hres. cbn in Hres.
      destruct (calls w !! c) as [call|] eqn:Hcall.
      * rewrite (lookup_app_l_Some _ _ _ _ Hcall) in Hres.
        apply (Hinv c). unfold result_of. by rewrite Hcall.
      * apply lookup_ge_None in Hcall. rewrite lookup_app_r in Hres by done.
        destruct (c - length (calls w)); cbn in Hres; [|done].
        unfold started_state in Hres.
        by destruct (get_prop (options this) "CLOUDINARY_UPLOAD_PRESET").
    + unfold step in Hstep.
      destruct (abort a w) as [[o w1]|] eqn:Habort; [|done].
      injection Hstep as <-.
      destruct (abort_keeps _ _ _ _ Habort) as (_ & Hcalls & _).
      apply (Hinv c). unfold result_of in Hres |- *. by rewrite <- Hcalls.
Qed.

Lemma exec_result_shape evs w w' :
  wf w ->
  (forall c v, result_of w c = Some (Normal v) -> upload_result_shape v) ->
  exec evs w = Some w' ->
  forall c v, result_of w' c = Some (Normal v) -> upload_result_shape v.
Proof.
  revert w. induction evs as [|ev evs IH]; intros w Hwf Hinv; cbn.
  - by intros [= <-].
  - destruct (step ev w) as [w1|] eqn:Hstep; [|done]. cbn.
    apply IH; [by eapply step_wf | by eapply step_result_shape].
Qed.

End ResultShape.

(** X16: whenever a call of [upload()] has resolved, in any reachable
    world, its value is an object with the single property [default];
    [upload] never resolves with the response or the parsed body itself. *)
Theorem upload_resolves_only_with_default
    (w : World) (c : nat) (v : JSValue) :
  reachable w ->
  result_of w c = Some (Normal v) ->
  exists x, v = JObj {[ "default" := x ]}.
Proof.
  intros [evs Hevs] Hres.
  by apply (exec_result_shape evs empty_world w wf_empty) with (c := c).
Qed.

Lemma upload_resolves_only_with_default_witness :
  exists x,
    JObj {[ "default" := JStr "https://cdn.example.com/x.png" ]}
    = JObj {[ "default" := x ]}.
Proof.
  apply (upload_resolves_only_with_default world_settled 0).
  - apply reachable_world_settled.
  - vm_compute. reflexivity.
Defined.
